(** * cortex::matrix — a shallow embedding of [src/src/matrix.hpp]

    The container is a class template over its element type [_Tp]; it keeps
    four [std::size_t] fields and a raw pointer to a block obtained from
    [::operator new].  The embedding keeps that shape:

    - [size_type] is [N]; where the source multiplies two sizes (the
      dimension rule, the offset of [at]) the product is written with its
      wrap-around modulo [2^64] ([size_mul]);
    - the free store is a finite map from block names to lists of slots, a
      slot being raw storage, an object whose value is indeterminate, or an
      object of value [v];
    - a pointer is [nullptr] or a block name with an offset;
    - the free store counts in slots and grants what it is asked for: a
      request for [n] elements yields a block of [n] slots.  The source asks
      [::operator new] for [n * sizeof(value_type)] bytes, a product in
      [std::size_t], and [::operator new] throws [std::bad_alloc] when it
      cannot grant a request; when the product does not wrap around
      ([fits_size_t]) a granted request has room for the [n] elements
      ([granted_slots_fits]).  A request for as many elements as a matrix or
      a list in memory has does not wrap around; where the number is
      computed from the arguments of the call (the dimensioned constructors,
      a growing [reserve]) that is a hypothesis, and the statement is about
      a call that returns;
    - a function that may throw, or whose behaviour the language leaves
      undefined, returns an [outcome]; functions that touch the free store
      thread it through the [Heap] monad. *)

From stdpp Require Import base numbers list strings gmap.

(** ** Sizes *)

Definition size_type := N.

Definition size_modulus : N := 2 ^ 64.

(** [a * b] on [std::size_t]. *)
Definition size_mul (a b : N) : N := ((a * b) mod size_modulus)%N.

(** The expression every constructor and [reserve] use for the number of
    slots: [rows * cols != 0 ? rows * cols : std::max(rows, cols)]. *)
Definition dims_size (rows cols : N) : N :=
  if negb (size_mul rows cols =? 0)%N then size_mul rows cols else N.max rows cols.

(** ** Exceptions and outcomes *)

Inductive exception : Type :=
  | invalid_argument (what : string)
  | out_of_range (what : string).

Inductive outcome (H A : Type) : Type :=
  | Ret (a : A) (h : H)
  | Throw (e : exception) (h : H)
  | Undefined.

Arguments Ret {H A} a h.
Arguments Throw {H A} e h.
Arguments Undefined {H A}.

(** ** The free store *)

Definition loc := positive.

Inductive pointer : Type :=
  | nullptr
  | Ptr (l : loc) (o : N).

(** [p + k] *)
Definition ptr_add (p : pointer) (k : N) : pointer :=
  match p with
  | nullptr => nullptr
  | Ptr l o => Ptr l (o + k)
  end.

(** What a slot of a block holds. *)
Inductive slot (T : Type) : Type :=
  | Raw
  | Indeterminate
  | Val (v : T).

Arguments Raw {T}.
Arguments Indeterminate {T}.
Arguments Val {T} v.

Abbreviation heap T := (gmap loc (list (slot T))).

Definition Heap (T A : Type) : Type := heap T → outcome (heap T) A.

#[export] Instance Heap_ret T : MRet (Heap T) := λ A a h, Ret a h.

#[export] Instance Heap_bind T : MBind (Heap T) := λ A B f m h,
  match m h with
  | Ret a h' => f a h'
  | Throw e h' => Throw e h'
  | Undefined => Undefined
  end.

Definition throw {T A} (e : exception) : Heap T A := λ h, Throw e h.

(** An operator of the element type that is undefined on some operands
    (signed overflow, integer division by zero) is a partial function. *)
Definition lift_op {T A} (r : option A) : Heap T A := λ h,
  match r with
  | Some a => Ret a h
  | None => Undefined
  end.

(** ** Capabilities of the element type

    The container asks of its element type only that certain operators
    exist (the concepts [Addable], [Subtractable], [Multiplicable],
    [Divisible] and their [...With] forms of [concepts.hpp], equality and
    order for the comparisons).  Each capability is a class whose method is
    the operator, a parameter of the development; an arithmetic operator
    returns [None] on operands for which the language leaves it undefined. *)

(** Default-initialisation ([::new (p) T]) gives a class type the value its
    default constructor builds, and leaves a scalar indeterminate ([None]). *)
Class DefaultInit (T : Type) := default_init : option T.

(** [sizeof(value_type)], by which [_M_allocate] multiplies the number of
    elements it asks [::operator new] for. *)
Class SizeOf (T : Type) := sizeof : positive.
Class EqualityComparable (T : Type) := eq_op : T → T → bool.
Class LessThanComparable (T : Type) := lt_op : T → T → bool.
Class Addable (T : Type) := std_plus : T → T → option T.
Class Subtractable (T : Type) := std_minus : T → T → option T.
Class Multiplicable (T : Type) := std_multiplies : T → T → option T.
Class Divisible (T : Type) := std_divides : T → T → option T.
Class ZeroComparable (T : Type) := eq_zero : T → bool.

Section Memory.
Context {T : Type}.

Implicit Types (h : heap T) (p : pointer) (b : list (slot T)).

(** [*p] read as a value. *)
Definition load (p : pointer) : Heap T T := λ h,
  match p with
  | nullptr => Undefined
  | Ptr l o =>
      match h !! l with
      | Some b =>
          match b !! N.to_nat o with
          | Some (Val v) => Ret v h
          | _ => Undefined
          end
      | None => Undefined
      end
  end.

(** Placement new on [p]: an object is created in the slot, [s] says with
    which value. *)
Definition construct_at (p : pointer) (s : slot T) : Heap T unit := λ h,
  match p with
  | nullptr => Undefined
  | Ptr l o =>
      match h !! l with
      | Some b =>
          if decide (N.to_nat o < length b)
          then Ret () (<[l := <[N.to_nat o := s]> b]> h)
          else Undefined
      | None => Undefined
      end
  end.

(** [*p = v]: the slot already holds an object. *)
Definition assign (p : pointer) (v : T) : Heap T unit := λ h,
  match p with
  | nullptr => Undefined
  | Ptr l o =>
      match h !! l with
      | Some b =>
          match b !! N.to_nat o with
          | Some (Val _) | Some Indeterminate =>
              Ret () (<[l := <[N.to_nat o := Val v]> b]> h)
          | _ => Undefined
          end
      | None => Undefined
      end
  end.

(** [std::destroy_at(p)]: the slot goes back to raw storage.  On a slot
    without an object the model leaves the slot as it is, which is what
    happens for a trivially destructible element type. *)
Definition destroy_at (p : pointer) : Heap T unit := λ h,
  match p with
  | nullptr => Undefined
  | Ptr l o =>
      match h !! l with
      | Some b =>
          if decide (N.to_nat o < length b)
          then Ret () (<[l := <[N.to_nat o := Raw]> b]> h)
          else Undefined
      | None => Undefined
      end
  end.

(** [::operator new(n * sizeof(T))]: a fresh block of [n] raw slots.  The
    free store of the model never runs out, and the byte count is not
    formed: see [fits_size_t]. *)
Definition operator_new (n : N) : Heap T pointer := λ h,
  let l := fresh (dom h) in
  Ret (Ptr l 0) (<[l := replicate (N.to_nat n) Raw]> h).

(** [::operator delete(p)]: nothing for a null pointer, otherwise [p] is
    the start of a block of the free store. *)
Definition operator_delete (p : pointer) : Heap T unit := λ h,
  match p with
  | nullptr => Ret () h
  | Ptr l o =>
      match h !! l with
      | Some _ => if (o =? 0)%N then Ret () (delete l h) else Undefined
      | None => Undefined
      end
  end.

(** *** The algorithms of [<memory>] and [<algorithm>] the container calls *)

Fixpoint uninitialized_fill_n (first : pointer) (n : nat) (x : T) : Heap T unit :=
  match n with
  | O => mret ()
  | S n' =>
      construct_at first (Val x) ;; uninitialized_fill_n (ptr_add first 1) n' x
  end.

Definition default_slot `{!DefaultInit T} : slot T :=
  match default_init with
  | Some v => Val v
  | None => Indeterminate
  end.

Fixpoint uninitialized_default_construct_n `{!DefaultInit T}
    (first : pointer) (n : nat) : Heap T unit :=
  match n with
  | O => mret ()
  | S n' =>
      construct_at first default_slot ;;
      uninitialized_default_construct_n (ptr_add first 1) n'
  end.

(** The source range of the nested-list constructor is the backing array
    of a [std::initializer_list], which does not live in the free store:
    it is the list [src]. *)
Fixpoint uninitialized_move_list (src : list T) (n : nat) (d_first : pointer)
    : Heap T unit :=
  match n with
  | O => mret ()
  | S n' =>
      match src with
      | [] => λ _, Undefined
      | v :: src' =>
          construct_at d_first (Val v) ;;
          uninitialized_move_list src' n' (ptr_add d_first 1)
      end
  end.

(** [std::uninitialized_move_n] and [std::uninitialized_copy_n] between two
    ranges of the free store.  The moved-from object stays alive. *)
Fixpoint uninitialized_move_n (first : pointer) (n : nat) (d_first : pointer)
    : Heap T unit :=
  match n with
  | O => mret ()
  | S n' =>
      v ← load first;
      construct_at d_first (Val v) ;;
      uninitialized_move_n (ptr_add first 1) n' (ptr_add d_first 1)
  end.

Fixpoint destroy_n (first : pointer) (n : nat) : Heap T unit :=
  match n with
  | O => mret ()
  | S n' => destroy_at first ;; destroy_n (ptr_add first 1) n'
  end.

(** [std::transform(first1, first1 + n, first2, d_first, op)] *)
Fixpoint transform2 (first1 : pointer) (n : nat) (first2 d_first : pointer)
    (op : T → T → option T) : Heap T unit :=
  match n with
  | O => mret ()
  | S n' =>
      x ← load first1;
      y ← load first2;
      z ← lift_op (op x y);
      assign d_first z ;;
      transform2 (ptr_add first1 1) n' (ptr_add first2 1) (ptr_add d_first 1) op
  end.

(** [std::transform(first1, first1 + n, d_first, op)] *)
Fixpoint transform1 (first1 : pointer) (n : nat) (d_first : pointer)
    (op : T → option T) : Heap T unit :=
  match n with
  | O => mret ()
  | S n' =>
      x ← load first1;
      z ← lift_op (op x);
      assign d_first z ;;
      transform1 (ptr_add first1 1) n' (ptr_add d_first 1) op
  end.

(** [std::equal(first1, first1 + n, first2)] *)
Fixpoint equal `{!EqualityComparable T} (first1 : pointer) (n : nat)
    (first2 : pointer) : Heap T bool :=
  match n with
  | O => mret true
  | S n' =>
      x ← load first1;
      y ← load first2;
      if eq_op x y then equal (ptr_add first1 1) n' (ptr_add first2 1)
      else mret false
  end.

(** [std::lexicographical_compare(first1, first1 + n1, first2, first2 + n2)]:
    the loop runs while both ranges have an element left, and the result
    after the loop is [first1 == last1 && first2 != last2]. *)
Fixpoint lexicographical_compare `{!LessThanComparable T}
    (first1 : pointer) (n1 : nat) (first2 : pointer) (n2 : nat) : Heap T bool :=
  match n1, n2 with
  | O, O => mret false
  | O, S _ => mret true
  | S _, O => mret false
  | S n1', S n2' =>
      x ← load first1;
      y ← load first2;
      if lt_op x y then mret true
      else if lt_op y x then mret false
      else lexicographical_compare (ptr_add first1 1) n1' (ptr_add first2 1) n2'
  end.

(** [std::copy_n(first, n, out)] into a fresh [std::vector]: the values read. *)
Fixpoint copy_n (first : pointer) (n : nat) : Heap T (list T) :=
  match n with
  | O => mret []
  | S n' =>
      x ← load first;
      xs ← copy_n (ptr_add first 1) n';
      mret (x :: xs)
  end.

End Memory.

(** ** The container *)

Record matrix : Type := Matrix {
  m_rows : N;
  m_columns : N;
  m_size : N;
  m_capacity : N;
  m_data : pointer
}.

Section Container.
Context {T : Type}.

Implicit Types (this other lhs rhs : matrix).

Definition _M_allocate (n : N) : Heap T pointer :=
  if negb (n =? 0)%N then operator_new n else mret nullptr.

Definition _M_deallocate (p : pointer) (n : N) : Heap T unit :=
  operator_delete p.

(** *** Observers *)

Definition size this : N := m_size this.
Definition row_size this : N := m_rows this.
Definition column_size this : N := m_columns this.
Definition capacity this : N := m_capacity this.
Definition dimensions this : N * N := (m_columns this, m_rows this).
Definition empty this : bool := (m_size this =? 0)%N.

(** [begin()] is the iterator on [m_data], [end()] the one on
    [m_data + m_size]; an algorithm called on the pair runs over
    [m_size] elements, which is the count the model passes. *)
Definition begin this : pointer := m_data this.
Definition end_ this : pointer := ptr_add (m_data this) (m_size this).

(** [flatten()] *)
Definition flatten this : Heap T (list T) :=
  copy_n (m_data this) (N.to_nat (m_size this)).

(** *** Constructors *)

Definition matrix_default : matrix := Matrix 0 0 0 0 nullptr.

(** [matrix(size_type rows, size_type cols)].  Of the two branches of the
    [if constexpr] the second needs [value_type()] and so exists for
    default-constructible element types only, for which the first one is
    taken. *)
Definition matrix_size `{!DefaultInit T} (rows cols : N) : Heap T matrix :=
  let size := dims_size rows cols in
  data ← _M_allocate size;
  uninitialized_default_construct_n data (N.to_nat size) ;;
  mret (Matrix rows cols size size data).

(** [matrix(size_type rows, size_type cols, const value_type& value)] *)
Definition matrix_size_value (rows cols : N) (value : T) : Heap T matrix :=
  let size := dims_size rows cols in
  data ← _M_allocate size;
  uninitialized_fill_n data (N.to_nat size) value ;;
  mret (Matrix rows cols size size data).

(** [matrix(matrix&& other)]: the new object and what is left of [other]. *)
Definition matrix_move other : matrix * matrix :=
  (Matrix (m_rows other) (m_columns other) (m_size other) (m_capacity other)
          (m_data other),
   Matrix 0 0 0 (m_capacity other) nullptr).

(** The loop of the nested-list constructor and of the nested-list
    assignment; [offset] is the local [auto offset { 0 }]. *)
Fixpoint init_list_rows (list : list (list T)) (columns : N) (data : pointer)
    (offset : N) : Heap T unit :=
  match list with
  | [] => mret ()
  | row :: rest =>
      if negb (N.of_nat (length row) =? columns)%N
      then throw (invalid_argument "Columns must be all the same size")
      else
        uninitialized_move_list row (N.to_nat columns) (ptr_add data offset) ;;
        init_list_rows rest columns data (offset + 2)
  end.

(** [matrix(std::initializer_list<std::initializer_list<value_type>> list)].
    [list.begin()->size()] on an empty list reads past its end. *)
Definition matrix_init_list (list : list (list T)) : Heap T matrix :=
  match list with
  | [] => λ _, Undefined
  | first :: _ =>
      let rows := N.of_nat (length list) in
      let columns := N.of_nat (length first) in
      let size := dims_size rows columns in
      data ← _M_allocate size;
      init_list_rows list columns data 0 ;;
      mret (Matrix rows columns size size data)
  end.

(** [operator=(std::initializer_list<...> list)]: the fields of [this] are
    overwritten one by one, its former block is not looked at. *)
Definition assign_init_list this (list : list (list T)) : Heap T matrix :=
  match list with
  | [] => λ _, Undefined
  | first :: _ =>
      let rows := N.of_nat (length list) in
      let columns := N.of_nat (length first) in
      let size := dims_size rows columns in
      data ← _M_allocate size;
      init_list_rows list columns data 0 ;;
      mret (Matrix rows columns size size data)
  end.

(** *** Comparison of two matrices *)

Definition operator_eq `{!EqualityComparable T} lhs rhs : Heap T bool :=
  if decide (dimensions lhs ≠ dimensions rhs) then mret false
  else equal (begin lhs) (N.to_nat (m_size lhs)) (begin rhs).

Definition operator_ne `{!EqualityComparable T} lhs rhs : Heap T bool :=
  r ← operator_eq lhs rhs; mret (negb r).

Definition operator_lt `{!LessThanComparable T} lhs rhs : Heap T bool :=
  lexicographical_compare (begin lhs) (N.to_nat (m_size lhs))
                          (begin rhs) (N.to_nat (m_size rhs)).

Definition operator_gt `{!LessThanComparable T} lhs rhs : Heap T bool :=
  operator_lt rhs lhs.

Definition operator_le `{!LessThanComparable T} lhs rhs : Heap T bool :=
  r ← operator_lt rhs lhs; mret (negb r).

Definition operator_ge `{!LessThanComparable T} lhs rhs : Heap T bool :=
  r ← operator_lt lhs rhs; mret (negb r).

(** *** Assignment, growth, clearing *)

(** [operator=(matrix&& other)]: [this] and [other] after the call. *)
Definition assign_move `{!EqualityComparable T} this other
    : Heap T (matrix * matrix) :=
  ne ← operator_ne this other;
  if ne : bool
  then mret (Matrix (m_rows other) (m_columns other) (m_size other)
                    (m_capacity other) (m_data other),
             Matrix 0 0 0 (m_capacity other) nullptr)
  else mret (this, other).

Definition reserve this (new_rows new_columns : N) : Heap T matrix :=
  let new_capacity := dims_size new_rows new_columns in
  if (m_capacity this <? new_capacity)%N
  then
    new_data ← _M_allocate new_capacity;
    uninitialized_move_n (m_data this) (N.to_nat (m_size this)) new_data ;;
    destroy_n (m_data this) (N.to_nat (m_capacity this)) ;;
    _M_deallocate (m_data this) (m_capacity this) ;;
    mret (Matrix new_rows new_columns (m_size this) new_capacity new_data)
  else mret this.

Definition clear this : Heap T matrix :=
  if negb (m_size this =? 0)%N
  then
    destroy_n (m_data this) (N.to_nat (m_size this)) ;;
    mret (Matrix 0 0 0 (m_capacity this) (m_data this))
  else mret this.

(** *** Point access *)

Definition _M_range_check this (row column : N) : Heap T unit :=
  if (row_size this <=? row)%N || (column_size this <=? column)%N
  then throw (out_of_range "matrix::_M_range_check - index out of range.")
  else mret ().

(** [at(row, column)]; the reference returned is the address of the slot. *)
Definition at_ this (row column : N) : Heap T pointer :=
  _M_range_check this row column ;;
  mret (ptr_add (ptr_add (m_data this) (size_mul (m_columns this) row)) column).

(** [operator()(row, column)] *)
Definition operator_call this (row column : N) : Heap T pointer :=
  at_ this row column.

(** *** Arithmetic

    The member templates take a matrix of another element type [_ElemT] (a
    scalar of type [_ScalarT]) and return a matrix of the type of the
    operator's result; the embedding takes the three types equal, which is
    the instance [matrix<int>] with [matrix<int>] or [int]. *)

Definition add `{!DefaultInit T, !Addable T} this other : Heap T matrix :=
  if decide (dimensions this ≠ dimensions other)
  then throw (invalid_argument "In matrix::add - dimensions do not match")
  else
    result ← matrix_size (row_size this) (column_size this);
    transform2 (begin this) (N.to_nat (m_size this)) (begin other)
               (begin result) std_plus ;;
    mret result.

Definition sub `{!DefaultInit T, !Subtractable T} this other : Heap T matrix :=
  if decide (dimensions this ≠ dimensions other)
  then throw (invalid_argument "In matrix::sub - dimensions do not match")
  else
    result ← matrix_size (row_size this) (column_size this);
    transform2 (begin this) (N.to_nat (m_size this)) (begin other)
               (begin result) std_minus ;;
    mret result.

Definition mul `{!DefaultInit T, !Multiplicable T} this other : Heap T matrix :=
  if decide (dimensions this ≠ dimensions other)
  then throw (invalid_argument "In matrix::mult - dimensions do not match")
  else
    result ← matrix_size (row_size this) (column_size this);
    transform2 (begin this) (N.to_nat (m_size this)) (begin other)
               (begin result) std_multiplies ;;
    mret result.

Definition div `{!DefaultInit T, !Divisible T} this other : Heap T matrix :=
  if decide (dimensions this ≠ dimensions other)
  then throw (invalid_argument "In matrix::div - dimensions do not match")
  else
    result ← matrix_size (row_size this) (column_size this);
    transform2 (begin this) (N.to_nat (m_size this)) (begin other)
               (begin result) std_divides ;;
    mret result.

(** [mul(const _ScalarT& scalar)] *)
Definition mul_scalar `{!DefaultInit T, !Multiplicable T} this (scalar : T)
    : Heap T matrix :=
  if empty this
  then throw (invalid_argument
                "In matrix::mul - scalar multiplication on empty matrix")
  else
    result ← matrix_size (row_size this) (column_size this);
    transform1 (begin this) (N.to_nat (m_size this)) (begin result)
               (λ elem, std_multiplies elem scalar) ;;
    mret result.

(** [div(const _ScalarT& scalar)] *)
Definition div_scalar `{!DefaultInit T, !Divisible T, !ZeroComparable T}
    this (scalar : T) : Heap T matrix :=
  if empty this
  then throw (invalid_argument "In matrix::div - scalar division on empty matrix")
  else if eq_zero scalar
  then throw (invalid_argument "In matrix::div - scalar is zero")
  else
    result ← matrix_size (row_size this) (column_size this);
    transform1 (begin this) (N.to_nat (m_size this)) (begin result)
               (λ elem, std_divides elem scalar) ;;
    mret result.

End Container.

(** ** The rest of the container: copies, destruction, swap, unchecked
    access *)

(** [p - k]: there is no pointer before the start of a block. *)
Definition ptr_sub (p : pointer) (k : N) : option pointer :=
  match p with
  | nullptr => None
  | Ptr l o => if (k <=? o)%N then Some (Ptr l (o - k)) else None
  end.

Section Lifecycle.
Context {T : Type}.

Implicit Types (this other : matrix).

(** [std::uninitialized_copy_n(first, n, d_first)]: in the model a copy and
    a move of an element leave the same two objects behind. *)
Definition uninitialized_copy_n (first : pointer) (n : nat) (d_first : pointer)
    : Heap T unit :=
  uninitialized_move_n first n d_first.

(** [matrix(const matrix& other)] *)
Definition matrix_copy other : Heap T matrix :=
  let size := m_size other in
  data ← _M_allocate size;
  uninitialized_copy_n (m_data other) (N.to_nat size) data ;;
  mret (Matrix (m_rows other) (m_columns other) size size data).

(** [operator=(const matrix& other)]: the former block of [this] is neither
    destroyed nor released. *)
Definition assign_copy `{!EqualityComparable T} this other : Heap T matrix :=
  ne ← operator_ne this other;
  if ne : bool
  then
    let size := m_size other in
    data ← _M_allocate size;
    uninitialized_copy_n (m_data other) (N.to_nat size) data ;;
    mret (Matrix (m_rows other) (m_columns other) size size data)
  else mret this.

(** [~matrix()]: the fields of the dead object are what the body leaves. *)
Definition destructor this : Heap T matrix :=
  match m_data this with
  | nullptr => mret ()
  | Ptr _ _ =>
      destroy_n (m_data this) (N.to_nat (m_size this)) ;;
      _M_deallocate (m_data this) (m_size this)
  end ;;
  mret (Matrix 0 0 0 0 (m_data this)).

(** [swap(matrix& other)], for two distinct objects: [this] and [other]
    after the call.  The local [tmp] is destroyed at the end of the body. *)
Definition swap `{!EqualityComparable T} this other : Heap T (matrix * matrix) :=
  let '(tmp, other1) := matrix_move other in
  '(other2, this1) ← assign_move other1 this;
  '(this2, tmp1) ← assign_move this1 tmp;
  destructor tmp1 ;;
  mret (this2, other2).

(** [operator[](step)]: the address [m_data + step], unchecked. *)
Definition operator_index this (step : N) : pointer :=
  ptr_add (m_data this) step.

(** [front()] and [back()]: the addresses [m_data] and
    [m_data + m_size - 1]. *)
Definition front this : pointer := m_data this.

Definition back this : Heap T pointer :=
  lift_op (ptr_sub (ptr_add (m_data this) (m_size this)) 1).

End Lifecycle.

(** ** Comparison of a matrix with a scalar

    The six operators return a [matrix<bool>].  A store of one element
    type cannot hold the operand and the result; here it holds values of
    [E + bool], the operand's block on the left and the result's on the
    right.  The lambda handed to [std::transform] reads an [E]. *)

Class NotEqualComparable (E : Type) := ne_op : E → E → bool.
Class GreaterThanComparable (E : Type) := gt_op : E → E → bool.
Class LessEqualComparable (E : Type) := le_op : E → E → bool.
Class GreaterEqualComparable (E : Type) := ge_op : E → E → bool.

Section ScalarComparison.
Context {E : Type}.

Implicit Types (mtx : matrix) (elem : E).

(** [[elem](const _ElemT& mtxE) { return mtxE cmp elem; }] *)
Definition compare_with (cmp : E → E → bool) elem (mtxE : E + bool)
    : option (E + bool) :=
  match mtxE with
  | inl e => Some (inr (cmp e elem))
  | inr _ => None
  end.

Definition operator_eq_scalar `{!EqualityComparable E} mtx elem
    : Heap (E + bool) matrix :=
  result ← matrix_size_value (row_size mtx) (column_size mtx) (inr false);
  transform1 (begin mtx) (N.to_nat (m_size mtx)) (begin result)
             (compare_with eq_op elem) ;;
  mret result.

Definition operator_ne_scalar `{!NotEqualComparable E} mtx elem
    : Heap (E + bool) matrix :=
  result ← matrix_size_value (row_size mtx) (column_size mtx) (inr false);
  transform1 (begin mtx) (N.to_nat (m_size mtx)) (begin result)
             (compare_with ne_op elem) ;;
  mret result.

Definition operator_lt_scalar `{!LessThanComparable E} mtx elem
    : Heap (E + bool) matrix :=
  result ← matrix_size_value (row_size mtx) (column_size mtx) (inr false);
  transform1 (begin mtx) (N.to_nat (m_size mtx)) (begin result)
             (compare_with lt_op elem) ;;
  mret result.

Definition operator_gt_scalar `{!GreaterThanComparable E} mtx elem
    : Heap (E + bool) matrix :=
  result ← matrix_size_value (row_size mtx) (column_size mtx) (inr false);
  transform1 (begin mtx) (N.to_nat (m_size mtx)) (begin result)
             (compare_with gt_op elem) ;;
  mret result.

Definition operator_le_scalar `{!LessEqualComparable E} mtx elem
    : Heap (E + bool) matrix :=
  result ← matrix_size_value (row_size mtx) (column_size mtx) (inr false);
  transform1 (begin mtx) (N.to_nat (m_size mtx)) (begin result)
             (compare_with le_op elem) ;;
  mret result.

Definition operator_ge_scalar `{!GreaterEqualComparable E} mtx elem
    : Heap (E + bool) matrix :=
  result ← matrix_size_value (row_size mtx) (column_size mtx) (inr false);
  transform1 (begin mtx) (N.to_nat (m_size mtx)) (begin result)
             (compare_with ge_op elem) ;;
  mret result.

End ScalarComparison.

(** ** The element type [int] *)

Module Int.

Definition INT_MIN : Z := (- 2 ^ 31)%Z.
Definition INT_MAX : Z := (2 ^ 31 - 1)%Z.

Definition in_range (z : Z) : bool := ((INT_MIN <=? z) && (z <=? INT_MAX))%Z.

(** The result of an arithmetic operator on [int], undefined when it does
    not fit. *)
Definition checked (z : Z) : option Z := if in_range z then Some z else None.

#[export] Instance int_default : DefaultInit Z := None.
#[export] Instance int_eq : EqualityComparable Z := Z.eqb.
#[export] Instance int_lt : LessThanComparable Z := Z.ltb.
#[export] Instance int_plus : Addable Z := λ a b, checked (a + b).
#[export] Instance int_minus : Subtractable Z := λ a b, checked (a - b).
#[export] Instance int_multiplies : Multiplicable Z := λ a b, checked (a * b).

(** [a / b] on [int]: undefined for a zero divisor, the quotient truncated
    toward zero otherwise. *)
#[export] Instance int_divides : Divisible Z := λ a b,
  if (b =? 0)%Z then None else checked (a ÷ b).

#[export] Instance int_zero : ZeroComparable Z := λ a, (a =? 0)%Z.

#[export] Instance int_sizeof : SizeOf Z := 4%positive.

End Int.

Import Int.

Module IntOrder.

#[export] Instance int_ne : NotEqualComparable Z := λ a b, negb (a =? b)%Z.
#[export] Instance int_gt : GreaterThanComparable Z := Z.gtb.
#[export] Instance int_le : LessEqualComparable Z := Z.leb.
#[export] Instance int_ge : GreaterEqualComparable Z := Z.geb.

End IntOrder.

Import IntOrder.

(** * Vocabulary of the specification *)

(** A computation that never throws. *)
Definition no_throw {T A} (m : Heap T A) : Prop :=
  ∀ h e h', m h ≠ Throw e h'.

(** The byte count [n * sizeof(value_type)] of a request for [n] elements
    is a [std::size_t]: the product [_M_allocate] hands to [::operator new]
    does not wrap around. *)
Definition fits_size_t (T : Type) `{!SizeOf T} (n : N) : Prop :=
  (n * N.pos (sizeof (T:=T)) < size_modulus)%N.

(** The number of elements there is room for in what [_M_allocate(n)] gets
    when its request is granted: the request is for
    [n * sizeof(value_type)] bytes, the product taken in [std::size_t]. *)
Definition granted_slots (T : Type) `{!SizeOf T} (n : N) : N :=
  (size_mul n (N.pos (sizeof (T:=T))) / N.pos (sizeof (T:=T)))%N.

(** The rule as the constructors apply it to [rows] and [cols]: [n] is the
    product taken in [size_type] unless that product is zero, and the
    larger of the two then. *)
Definition dimension_rule (rows cols n : N) : Prop :=
  (size_mul rows cols ≠ 0%N → n = size_mul rows cols) ∧
  (size_mul rows cols = 0%N → n = N.max rows cols) ∧
  ((rows * cols < size_modulus)%N → rows ≠ 0%N → cols ≠ 0%N →
   n = (rows * cols)%N) ∧
  (rows = 0%N ∨ cols = 0%N → n = N.max rows cols).

Section Vocabulary.
Context {T : Type}.

Implicit Types (h : heap T) (m a b r : matrix) (xs ys zs : list T).

(** The block [blk] carries the values [xs] from offset [o] on. *)
Definition holds_at (blk : list (slot T)) (o : nat) xs : Prop :=
  ∀ i x, xs !! i = Some x → blk !! (o + i)%nat = Some (Val x).

(** The slots [od .. od + n) of [blk] hold objects. *)
Definition assignable (blk : list (slot T)) (od n : nat) : Prop :=
  ∀ i, i < n → ∃ s, blk !! (od + i)%nat = Some s ∧ s ≠ Raw.

(** A loop of placements, one slot after the other: the common shape of
    [uninitialized_fill_n], [uninitialized_default_construct_n],
    [uninitialized_move_list] and [destroy_n]. *)
Fixpoint write_slots (p : pointer) (ss : list (slot T)) : Heap T unit :=
  match ss with
  | [] => mret ()
  | s :: ss' => construct_at p s ;; write_slots (ptr_add p 1) ss'
  end.

(** I1: the size is the one the dimension rule gives. *)
Definition I1 m : Prop := m_size m = dims_size (m_rows m) (m_columns m).

(** The block [m_data] points to: none for a null pointer of capacity 0. *)
Definition buffer h m : option (list (slot T)) :=
  match m_data m with
  | nullptr => if (m_capacity m =? 0)%N then Some [] else None
  | Ptr l o => if (o =? 0)%N then h !! l else None
  end.

(** I2: [capacity >= size], the block has [capacity] slots, the first
    [size] of them hold the live elements [xs] in row-major order and the
    others are raw storage. *)
Definition I2 h m xs : Prop :=
  N.of_nat (length xs) = m_size m ∧
  (m_size m ≤ m_capacity m)%N ∧
  buffer h m
  = Some ((Val <$> xs) ++ replicate (N.to_nat (m_capacity m) - length xs) Raw).

(** The block named by [m_data] was not part of [h]. *)
Definition fresh_in h m : Prop :=
  match m_data m with
  | nullptr => True
  | Ptr l _ => h !! l = None
  end.

(** What both dimensioned constructors do, [s] being what they put in a
    slot. *)
Definition constructed (rows cols : N) (s : slot T) h
    (o : outcome (heap T) matrix) : Prop :=
  ∃ m h', o = Ret m h' ∧
    row_size m = rows ∧ column_size m = cols ∧
    size m = dims_size rows cols ∧ capacity m = size m ∧
    buffer h' m = Some (replicate (N.to_nat (size m)) s) ∧
    fresh_in h m ∧ h ⊆ h'.

(** The body that [add], [sub], [mul] and [div] share. *)
Definition elementwise `{!DefaultInit T} (what : string)
    (op : T → T → option T) a b : Heap T matrix :=
  if decide (dimensions a ≠ dimensions b)
  then throw (invalid_argument what)
  else
    result ← matrix_size (row_size a) (column_size a);
    transform2 (begin a) (N.to_nat (m_size a)) (begin b) (begin result) op ;;
    mret result.

(** What the specification says of one such operation on the operands
    [a] and [b] whose elements are [xs] and [ys]. *)
Definition elementwise_outcome (what : string) (op : T → T → option T)
    h a b xs ys (o : outcome (heap T) matrix) : Prop :=
  (dimensions a ≠ dimensions b → o = Throw (invalid_argument what) h) ∧
  (dimensions a = dimensions b →
   ∀ zs, Forall3 (λ x y z, op x y = Some z) xs ys zs →
     ∃ r h', o = Ret r h' ∧
       dimensions r = dimensions a ∧ I1 r ∧ I2 h' r zs ∧
       fresh_in h r ∧ h ⊆ h' ∧ I2 h' a xs ∧ I2 h' b ys).

(** What [mul(scalar)] and [div(scalar)] do once their checks have passed. *)
Definition scalarwise `{!DefaultInit T} (op : T → option T) a : Heap T matrix :=
  result ← matrix_size (row_size a) (column_size a);
  transform1 (begin a) (N.to_nat (m_size a)) (begin result) op ;;
  mret result.

(** The lexicographic order on sequences that the element order [<]
    induces: the first position where the two differ decides, and a
    proper prefix is smaller. *)
Inductive lex_lt `{!LessThanComparable T} : list T → list T → Prop :=
  | lex_lt_prefix y ys : lex_lt [] (y :: ys)
  | lex_lt_head x y xs ys : lt_op x y = true → lex_lt (x :: xs) (y :: ys)
  | lex_lt_tail x y xs ys :
      lt_op x y = false → lt_op y x = false → lex_lt xs ys →
      lex_lt (x :: xs) (y :: ys).

End Vocabulary.

(** What a comparison of a matrix with a scalar gives: a [matrix<bool>] of
    the dimensions of [mtx], in a block of its own, whose element [i] is
    [cmp x elem] for the element [x] at position [i] of [mtx].  Both element
    types live in the one free store, whose slots hold an [E] or a [bool]. *)
Definition compared_with {E : Type} (cmp : E → E → bool) (elem : E)
    (h : heap (E + bool)) (mtx : matrix) (xs : list E)
    (o : outcome (heap (E + bool)) matrix) : Prop :=
  ∃ r h', o = Ret r h' ∧
    dimensions r = dimensions mtx ∧ I1 r ∧
    I2 h' r (inr <$> ((λ x, cmp x elem) <$> xs)) ∧
    fresh_in h r ∧ h ⊆ h' ∧ I2 h' mtx (inl <$> xs).

(** * Concrete matrices of [int] *)

Module Examples.

(** [A = {{1,2},{3,4}}], [B = {{5,6},{7,8}}], [C] a 2x3 and [D] a 3x2
    matrix, [E = {{7}}], [F = {{0}}] and [G = {{1,2},{3,5}}], each in a block of
    its own. *)
Definition store : heap Z :=
  {[ 1%positive := Val <$> [1; 2; 3; 4]%Z;
     2%positive := Val <$> [5; 6; 7; 8]%Z;
     3%positive := Val <$> [1; 2; 3; 4; 5; 6]%Z;
     4%positive := Val <$> [1; 2; 3; 4; 5; 6]%Z;
     5%positive := [Val 7%Z];
     6%positive := [Val 0%Z];
     7%positive := Val <$> [1; 2; 3; 5]%Z ]}.

Definition A : matrix := Matrix 2 2 4 4 (Ptr 1%positive 0).
Definition B : matrix := Matrix 2 2 4 4 (Ptr 2%positive 0).
Definition C : matrix := Matrix 2 3 6 6 (Ptr 3%positive 0).
Definition D : matrix := Matrix 3 2 6 6 (Ptr 4%positive 0).
Definition E : matrix := Matrix 1 1 1 1 (Ptr 5%positive 0).
Definition F : matrix := Matrix 1 1 1 1 (Ptr 6%positive 0).
Definition G : matrix := Matrix 2 2 4 4 (Ptr 7%positive 0).

End Examples.

Ltac concrete_I2 := split_and!; [reflexivity | vm_compute; discriminate | vm_compute; reflexivity].

(** * Reasoning about the free store *)

Lemma to_nat_add_1 (o : N) : N.to_nat (o + 1) = S (N.to_nat o).
Proof. lia. Qed.

(** Running a bind whose first computation is known. *)
Lemma bind_Ret {T A B} (m : Heap T A) (f : A → Heap T B) h a h' :
  m h = Ret a h' → (m ≫= f) h = f a h'.
Proof. unfold mbind, Heap_bind. by intros ->. Qed.

Lemma bind_Throw {T A B} (m : Heap T A) (f : A → Heap T B) h e h' :
  m h = Throw e h' → (m ≫= f) h = Throw e h'.
Proof. unfold mbind, Heap_bind. by intros ->. Qed.

Lemma bind_Undefined {T A B} (m : Heap T A) (f : A → Heap T B) h :
  m h = Undefined → (m ≫= f) h = Undefined.
Proof. unfold mbind, Heap_bind. by intros ->. Qed.

Lemma no_throw_bind {T A B} (m : Heap T A) (f : A → Heap T B) :
  no_throw m → (∀ a, no_throw (f a)) → no_throw (m ≫= f).
Proof.
  intros Hm Hf h e h'. unfold mbind, Heap_bind.
  destruct (m h) as [a h1|e1 h1|] eqn:E; [apply Hf| |done].
  by destruct (Hm h e1 h1).
Qed.

Lemma no_throw_ret {T A} (a : A) : no_throw (mret a : Heap T A).
Proof. by intros h e h'. Qed.

Section MemoryFacts.
Context {T : Type}.

Implicit Types (h : heap T) (b : list (slot T)) (xs ys zs : list T).

Lemma holds_at_cons b o x xs :
  holds_at b o (x :: xs) ↔ b !! o = Some (Val x) ∧ holds_at b (S o) xs.
Proof.
  split.
  - intros H. split.
    + specialize (H 0%nat x eq_refl). by rewrite Nat.add_0_r in H.
    + intros i y Hi. specialize (H (S i) y Hi).
      by rewrite Nat.add_succ_r in H.
  - intros [H0 H] [|i] y Hi; simplify_eq/=.
    + by rewrite Nat.add_0_r.
    + rewrite Nat.add_succ_r. by apply H.
Qed.

Lemma holds_at_take b o xs :
  take (length xs) (drop o b) = Val <$> xs → holds_at b o xs.
Proof.
  intros E i x Hi.
  rewrite <-lookup_drop, <-(lookup_take_lt _ (length xs))
    by eauto using lookup_lt_Some.
  by rewrite E, list_lookup_fmap, Hi.
Qed.

Lemma write_slots_spec ss : ∀ l o b h,
  h !! l = Some b → N.to_nat o + length ss ≤ length b →
  write_slots (Ptr l o) ss h
  = Ret () (<[l := list_inserts (N.to_nat o) ss b]> h).
Proof.
  induction ss as [|s ss IH]; intros l o b h Hl Hlen; simpl in *.
  - by rewrite insert_id.
  - erewrite bind_Ret; last first.
    { unfold construct_at. rewrite Hl. by rewrite decide_True by lia. }
    rewrite (IH l (o + 1)%N (<[N.to_nat o := s]> b)).
    + rewrite insert_insert_eq, to_nat_add_1.
      by rewrite list_insert_inserts_lt by lia.
    + by rewrite lookup_insert_eq.
    + rewrite length_insert. lia.
Qed.

Lemma fill_write x n : ∀ p h,
  uninitialized_fill_n p n x h = write_slots p (replicate n (Val x)) h.
Proof.
  induction n as [|n IH]; intros p h; simpl; [done|].
  unfold mbind, Heap_bind. by destruct (construct_at _ _ _).
Qed.

Lemma default_construct_write `{!DefaultInit T} n : ∀ p h,
  uninitialized_default_construct_n p n h
  = write_slots p (replicate n default_slot) h.
Proof.
  induction n as [|n IH]; intros p h; simpl; [done|].
  unfold mbind, Heap_bind. by destruct (construct_at _ _ _).
Qed.

Lemma destroy_write n : ∀ p h,
  destroy_n p n h = write_slots p (replicate n Raw) h.
Proof.
  induction n as [|n IH]; intros p h; simpl; [done|].
  unfold mbind, Heap_bind.
  change (destroy_at p h) with (construct_at p Raw h).
  by destruct (construct_at _ _ _).
Qed.

Lemma move_list_write n : ∀ src p h,
  n ≤ length src →
  uninitialized_move_list src n p h = write_slots p (Val <$> take n src) h.
Proof.
  induction n as [|n IH]; intros [|v src] p h Hn; simpl in *; try done; [lia|].
  unfold mbind, Heap_bind.
  destruct (construct_at _ _ _); try done. apply IH. lia.
Qed.

Lemma load_Val l o b x h :
  h !! l = Some b → b !! N.to_nat o = Some (Val x) → load (Ptr l o) h = Ret x h.
Proof. unfold load. by intros -> ->. Qed.

Lemma assign_Ret l o b v h :
  h !! l = Some b →
  (∃ s, b !! N.to_nat o = Some s ∧ s ≠ Raw) →
  assign (Ptr l o) v h = Ret () (<[l := <[N.to_nat o := Val v]> b]> h).
Proof. unfold assign. intros -> ([| |w] & -> & ?); done. Qed.

Lemma copy_n_spec xs : ∀ l o b h,
  h !! l = Some b → holds_at b (N.to_nat o) xs →
  copy_n (Ptr l o) (length xs) h = Ret xs h.
Proof.
  induction xs as [|x xs IH]; intros l o b h Hl Hx; simpl; [done|].
  apply holds_at_cons in Hx as [H0 Hx].
  erewrite bind_Ret by eauto using load_Val.
  erewrite bind_Ret; [done|]. eapply IH; [done|]. by rewrite to_nat_add_1.
Qed.

End MemoryFacts.

(** * The invariants of the data model *)

Section Invariants.
Context {T : Type}.

Implicit Types (h : heap T) (m : matrix) (xs : list T).

Lemma I2_nil h m xs : I2 h m xs → m_size m = 0%N → xs = [].
Proof. intros (Hl & _) Hs. destruct xs; [done|simpl in *; lia]. Qed.

(** What [I2] gives for a matrix that has elements. *)
Lemma I2_block h m xs :
  I2 h m xs → m_size m ≠ 0%N →
  ∃ l b, m_data m = Ptr l 0 ∧ h !! l = Some b ∧
         length b = N.to_nat (m_capacity m) ∧ holds_at b 0 xs ∧
         b = (Val <$> xs) ++ replicate (N.to_nat (m_capacity m) - length xs) Raw.
Proof.
  intros (Hl & Hc & Hb) Hs. unfold buffer in Hb.
  destruct (m_data m) as [|l o].
  { destruct (N.eqb_spec (m_capacity m) 0); [lia|done]. }
  destruct (decide (o = 0%N)) as [->|Ho]; simpl in Hb;
    [|by apply N.eqb_neq in Ho; rewrite Ho in Hb].
  eexists l, _. split_and!; [done..| | |done].
  - rewrite length_app, length_fmap, length_replicate. lia.
  - apply holds_at_take. rewrite drop_0, take_app_length'; [done|].
    by rewrite length_fmap.
Qed.

Lemma _M_allocate_pos (n : N) h :
  n ≠ 0%N →
  ∃ l, h !! l = None ∧
       _M_allocate n h = Ret (Ptr l 0) (<[l := replicate (N.to_nat n) Raw]> h).
Proof.
  intros Hn. exists (fresh (dom h)). split.
  - apply not_elem_of_dom, is_fresh.
  - unfold _M_allocate. by destruct (N.eqb_spec n 0).
Qed.

(** A fresh block of [n] slots, every one of them constructed as [s]. *)
Lemma allocate_write (n : N) (s : slot T) h :
  ∃ p h', (data ← _M_allocate n;
           write_slots data (replicate (N.to_nat n) s) ;; mret data) h
          = Ret p h' ∧
          h ⊆ h' ∧
          (n = 0%N ∧ p = nullptr ∧ h' = h ∨
           n ≠ 0%N ∧ ∃ l, p = Ptr l 0 ∧ h !! l = None ∧
             h' = <[l := replicate (N.to_nat n) s]> h).
Proof.
  destruct (decide (n = 0%N)) as [->|Hn].
  - exists nullptr, h. split_and!; [done..|]. by left.
  - destruct (_M_allocate_pos n h Hn) as (l & Hl & E).
    exists (Ptr l 0), (<[l := replicate (N.to_nat n) s]> h).
    split_and!.
    + erewrite bind_Ret by done.
      erewrite bind_Ret; [done|].
      rewrite (write_slots_spec _ l 0 (replicate (N.to_nat n) Raw)).
      * rewrite insert_insert_eq. do 2 f_equal.
        rewrite <-(app_nil_r (replicate _ Raw)).
        rewrite list_inserts_0_r by (by rewrite !length_replicate).
        by rewrite app_nil_r.
      * by rewrite lookup_insert_eq.
      * rewrite !length_replicate. lia.
    + by apply insert_subseteq.
    + right. eauto.
Qed.

(** [flatten()] returns the elements [I2] speaks of. *)
Lemma flatten_spec h m xs : I2 h m xs → flatten m h = Ret xs h.
Proof.
  intros Hm. unfold flatten.
  replace (N.to_nat (m_size m)) with (length xs)
    by (destruct Hm as (? & _); lia).
  destruct (decide (m_size m = 0%N)) as [Hz|Hnz].
  - by rewrite (I2_nil _ _ _ Hm Hz).
  - destruct (I2_block h m xs Hm Hnz) as (l & b & -> & Hl & _ & Hx & _).
    by eapply copy_n_spec.
Qed.

End Invariants.

(** * The dimension rule *)

Lemma dims_size_nonzero (rows cols : N) :
  size_mul rows cols ≠ 0%N → dims_size rows cols = size_mul rows cols.
Proof. unfold dims_size. by destruct (N.eqb_spec (size_mul rows cols) 0). Qed.

Lemma dims_size_zero (rows cols : N) :
  size_mul rows cols = 0%N → dims_size rows cols = N.max rows cols.
Proof. unfold dims_size. by intros ->. Qed.

Lemma dims_size_product (rows cols : N) :
  (rows * cols < size_modulus)%N → rows ≠ 0%N → cols ≠ 0%N →
  dims_size rows cols = (rows * cols)%N.
Proof.
  intros Hlt Hr Hc.
  assert (size_mul rows cols = (rows * cols)%N) as E
    by (by apply N.mod_small).
  rewrite dims_size_nonzero; rewrite E; [done|lia].
Qed.

Lemma dims_size_degenerate (rows cols : N) :
  rows = 0%N ∨ cols = 0%N → dims_size rows cols = N.max rows cols.
Proof.
  intros H. apply dims_size_zero. unfold size_mul.
  destruct H as [-> | ->]; by rewrite ?N.mul_0_l, ?N.mul_0_r.
Qed.

Lemma dims_size_0_inv (rows cols : N) :
  dims_size rows cols = 0%N → rows = 0%N ∧ cols = 0%N.
Proof.
  unfold dims_size. destruct (N.eqb_spec (size_mul rows cols) 0); simpl; lia.
Qed.

Lemma dims_size_rule (rows cols : N) : dimension_rule rows cols (dims_size rows cols).
Proof.
  split_and!; auto using dims_size_nonzero, dims_size_zero, dims_size_product,
    dims_size_degenerate.
Qed.

Section Constructors.
Context {T : Type}.

Implicit Types (h : heap T) (m : matrix).

Lemma matrix_size_value_spec (rows cols : N) (value : T) h :
  constructed rows cols (Val value) h (matrix_size_value rows cols value h).
Proof.
  unfold matrix_size_value, constructed.
  destruct (allocate_write (dims_size rows cols) (Val value) h)
    as (p & h' & E & Hsub & Hp).
  exists (Matrix rows cols (dims_size rows cols) (dims_size rows cols) p), h'.
  split_and!; try done.
  - unfold mbind, Heap_bind, mret, Heap_ret in *.
    destruct (_M_allocate _ h) as [q h1| |]; try done.
    rewrite fill_write.
    by destruct (write_slots q _ h1); simplify_eq/=.
  - unfold buffer; simpl.
    destruct Hp as [(-> & -> & ->)|(Hn & l & -> & Hl & ->)]; simpl; [done|].
    by rewrite lookup_insert_eq.
  - unfold fresh_in; simpl.
    by destruct Hp as [(_ & -> & _)|(_ & l & -> & Hl & _)].
Qed.

Lemma matrix_size_spec `{!DefaultInit T} (rows cols : N) h :
  constructed rows cols default_slot h (matrix_size rows cols h).
Proof.
  unfold matrix_size, constructed.
  destruct (allocate_write (dims_size rows cols) default_slot h)
    as (p & h' & E & Hsub & Hp).
  exists (Matrix rows cols (dims_size rows cols) (dims_size rows cols) p), h'.
  split_and!; try done.
  - unfold mbind, Heap_bind, mret, Heap_ret in *.
    destruct (_M_allocate _ h) as [q h1| |]; try done.
    rewrite default_construct_write.
    by destruct (write_slots q _ h1); simplify_eq/=.
  - unfold buffer; simpl.
    destruct Hp as [(-> & -> & ->)|(Hn & l & -> & Hl & ->)]; simpl; [done|].
    by rewrite lookup_insert_eq.
  - unfold fresh_in; simpl.
    by destruct Hp as [(_ & -> & _)|(_ & l & -> & Hl & _)].
Qed.

(** A matrix made by the fill constructor satisfies both invariants. *)
Lemma constructed_I2 (rows cols : N) (value : T) h m h' :
  constructed rows cols (Val value) h (Ret m h') →
  I1 m ∧ I2 h' m (replicate (N.to_nat (size m)) value).
Proof.
  intros (m' & h'' & [= <- <-] & Hr & Hc & Hs & Hcap & Hb & _).
  unfold row_size, column_size, size, capacity in *. split.
  - unfold I1. by rewrite Hr, Hc.
  - unfold I2. rewrite length_replicate, Hcap. split_and!; [lia|lia|].
    by rewrite Hb, Nat.sub_diag, fmap_replicate, app_nil_r.
Qed.

End Constructors.

(** * C7: the dimensioned constructors *)

(** A request whose byte count is a [std::size_t] gets, when it is granted,
    room for the [n] elements it was made for, the block the free store of
    the model hands out; the request of [matrix<int>(2^62 + 1, 1, 7)] wraps
    around to four bytes, room for one element. *)
Lemma granted_slots_fits (T : Type) `{!SizeOf T} (n : N) :
  fits_size_t T n → granted_slots T n = n.
Proof.
  unfold fits_size_t, granted_slots, size_mul. intros Hfit.
  rewrite N.mod_small by done. by apply N.div_mul.
Qed.

Lemma granted_slots_wraps :
  dims_size (2 ^ 62 + 1) 1 = (2 ^ 62 + 1)%N ∧
  ¬ fits_size_t Z (2 ^ 62 + 1) ∧ granted_slots Z (2 ^ 62 + 1) = 1%N.
Proof. split_and!; [reflexivity|vm_compute; by intros [=]|reflexivity]. Qed.




(** * C6: point access *)

Lemma ptr_add_add (p : pointer) (a b : N) :
  ptr_add (ptr_add p a) b = ptr_add p (a + b).
Proof. destruct p; simpl; [done|]. f_equal. lia. Qed.

Lemma flat_offset_lt (rows cols row column : N) :
  (row < rows)%N → (column < cols)%N → (row * cols + column < rows * cols)%N.
Proof. nia. Qed.



(** * The reading algorithms *)

Section Algorithms.
Context {T : Type}.

Implicit Types (h : heap T) (b : list (slot T)) (xs ys zs : list T).

Lemma assignable_S b od n v :
  assignable b od (S n) → assignable (<[od := Val v]> b) (S od) n.
Proof.
  intros H i Hi. destruct (H (S i)) as (s & Hs & Hne); [lia|].
  exists s. split; [|done].
  rewrite list_lookup_insert_ne by lia. by rewrite Nat.add_succ_r in Hs.
Qed.

Lemma assignable_0 b od n :
  assignable b od (S n) → ∃ s, b !! od = Some s ∧ s ≠ Raw.
Proof. intros H. destruct (H 0%nat) as (s & Hs & ?); [lia|]. rewrite Nat.add_0_r in Hs. eauto. Qed.

Lemma uninitialized_move_n_spec xs : ∀ ls os bs ld od bd h,
  ls ≠ ld → h !! ls = Some bs → h !! ld = Some bd →
  holds_at bs (N.to_nat os) xs →
  N.to_nat od + length xs ≤ length bd →
  uninitialized_move_n (Ptr ls os) (length xs) (Ptr ld od) h
  = Ret () (<[ld := list_inserts (N.to_nat od) (Val <$> xs) bd]> h).
Proof.
  induction xs as [|x xs IH]; intros ls os bs ld od bd h Hne Hs Hd Hx Hlen;
    simpl in *.
  - by rewrite insert_id.
  - apply holds_at_cons in Hx as [H0 Hx].
    erewrite bind_Ret by eauto using load_Val.
    erewrite bind_Ret; last first.
    { unfold construct_at. rewrite Hd. by rewrite decide_True by lia. }
    rewrite (IH ls (os + 1)%N bs ld (od + 1)%N (<[N.to_nat od := Val x]> bd)).
    + rewrite insert_insert_eq, to_nat_add_1.
      by rewrite list_insert_inserts_lt by lia.
    + done.
    + by rewrite lookup_insert_ne.
    + by rewrite lookup_insert_eq.
    + by rewrite to_nat_add_1.
    + rewrite length_insert. lia.
Qed.

Lemma transform2_spec (op : T → T → option T) xs ys zs :
  Forall3 (λ x y z, op x y = Some z) xs ys zs →
  ∀ l1 o1 b1 l2 o2 b2 ld od bd h,
  l1 ≠ ld → l2 ≠ ld →
  h !! l1 = Some b1 → h !! l2 = Some b2 → h !! ld = Some bd →
  holds_at b1 (N.to_nat o1) xs → holds_at b2 (N.to_nat o2) ys →
  assignable bd (N.to_nat od) (length xs) →
  transform2 (Ptr l1 o1) (length xs) (Ptr l2 o2) (Ptr ld od) op h
  = Ret () (<[ld := list_inserts (N.to_nat od) (Val <$> zs) bd]> h).
Proof.
  induction 1 as [|x y z xs ys zs Hop _ IH];
    intros l1 o1 b1 l2 o2 b2 ld od bd h Hn1 Hn2 H1 H2 Hd Hx Hy Ha; simpl in *.
  - by rewrite insert_id.
  - apply holds_at_cons in Hx as [Hx0 Hx].
    apply holds_at_cons in Hy as [Hy0 Hy].
    erewrite bind_Ret by eauto using load_Val.
    erewrite bind_Ret by eauto using load_Val.
    erewrite bind_Ret by (unfold lift_op; by rewrite Hop).
    erewrite bind_Ret by eauto using assign_Ret, assignable_0.
    rewrite (IH l1 (o1 + 1)%N b1 l2 (o2 + 1)%N b2 ld (od + 1)%N
               (<[N.to_nat od := Val z]> bd)).
    + rewrite insert_insert_eq, to_nat_add_1.
      by rewrite list_insert_inserts_lt by lia.
    + done.
    + done.
    + by rewrite lookup_insert_ne.
    + by rewrite lookup_insert_ne.
    + by rewrite lookup_insert_eq.
    + by rewrite to_nat_add_1.
    + by rewrite to_nat_add_1.
    + rewrite to_nat_add_1. by apply assignable_S.
Qed.

Lemma transform1_spec (op : T → option T) xs zs :
  Forall2 (λ x z, op x = Some z) xs zs →
  ∀ l1 o1 b1 ld od bd h,
  l1 ≠ ld → h !! l1 = Some b1 → h !! ld = Some bd →
  holds_at b1 (N.to_nat o1) xs →
  assignable bd (N.to_nat od) (length xs) →
  transform1 (Ptr l1 o1) (length xs) (Ptr ld od) op h
  = Ret () (<[ld := list_inserts (N.to_nat od) (Val <$> zs) bd]> h).
Proof.
  induction 1 as [|x z xs zs Hop _ IH];
    intros l1 o1 b1 ld od bd h Hn1 H1 Hd Hx Ha; simpl in *.
  - by rewrite insert_id.
  - apply holds_at_cons in Hx as [Hx0 Hx].
    erewrite bind_Ret by eauto using load_Val.
    erewrite bind_Ret by (unfold lift_op; by rewrite Hop).
    erewrite bind_Ret by eauto using assign_Ret, assignable_0.
    rewrite (IH l1 (o1 + 1)%N b1 ld (od + 1)%N (<[N.to_nat od := Val z]> bd)).
    + rewrite insert_insert_eq, to_nat_add_1.
      by rewrite list_insert_inserts_lt by lia.
    + done.
    + by rewrite lookup_insert_ne.
    + by rewrite lookup_insert_eq.
    + by rewrite to_nat_add_1.
    + rewrite to_nat_add_1. by apply assignable_S.
Qed.

(** Nothing in the two transforms throws. *)
Lemma load_no_throw p : no_throw (load (T:=T) p).
Proof.
  intros h e h'. unfold load.
  destruct p as [|l o]; [done|]. destruct (h !! l) as [b|]; [|done].
  by destruct (b !! N.to_nat o) as [[| |v]|].
Qed.

Lemma assign_no_throw p v : no_throw (assign (T:=T) p v).
Proof.
  intros h e h'. unfold assign.
  destruct p as [|l o]; [done|]. destruct (h !! l) as [b|]; [|done].
  by destruct (b !! N.to_nat o) as [[| |w]|].
Qed.

Lemma lift_op_no_throw (r : option T) : no_throw (lift_op (T:=T) r).
Proof. intros h e h'. unfold lift_op. by destruct r. Qed.

Lemma transform2_no_throw op n : ∀ p1 p2 d,
  no_throw (transform2 (T:=T) p1 n p2 d op).
Proof.
  induction n as [|n IH]; intros p1 p2 d; simpl.
  - apply no_throw_ret.
  - repeat (apply no_throw_bind; [|intros ?]);
      auto using load_no_throw, lift_op_no_throw, assign_no_throw.
Qed.

(** An operand pair on which the operator is undefined makes the whole
    transform undefined. *)
Lemma transform2_undefined (op : T → T → option T) xs : ∀ ys i x y
    l1 o1 b1 l2 o2 b2 ld od bd h,
  xs !! i = Some x → ys !! i = Some y → op x y = None →
  l1 ≠ ld → l2 ≠ ld →
  h !! l1 = Some b1 → h !! l2 = Some b2 → h !! ld = Some bd →
  holds_at b1 (N.to_nat o1) xs → holds_at b2 (N.to_nat o2) ys →
  transform2 (Ptr l1 o1) (length xs) (Ptr l2 o2) (Ptr ld od) op h = Undefined.
Proof.
  induction xs as [|x0 xs IH];
    intros ys i x y l1 o1 b1 l2 o2 b2 ld od bd h Hi Hj Hop Hn1 Hn2 H1 H2 Hd Hx Hy;
    [done|].
  destruct ys as [|y0 ys]; [by destruct i|]. simpl.
  apply holds_at_cons in Hx as [Hx0 Hx].
  apply holds_at_cons in Hy as [Hy0 Hy].
  erewrite bind_Ret by eauto using load_Val.
  erewrite bind_Ret by eauto using load_Val.
  destruct i as [|i]; simplify_eq/=.
  { apply bind_Undefined. unfold lift_op. by rewrite Hop. }
  destruct (op x0 y0) as [z|] eqn:Hz; [|by apply bind_Undefined].
  erewrite bind_Ret by done.
  unfold mbind at 1, Heap_bind at 1.
  destruct (assign (Ptr ld od) z h) as [[] h1|e h1|] eqn:Ea; [| |done].
  - unfold assign in Ea. rewrite Hd in Ea.
    assert (h1 = <[ld := <[N.to_nat od := Val z]> bd]> h) as ->.
    { by destruct (bd !! N.to_nat od) as [[| |w]|]; simplify_eq. }
    eapply (IH ys i x y l1 (o1 + 1)%N b1 l2 (o2 + 1)%N b2 ld (od + 1)%N);
      rewrite ?to_nat_add_1; try done.
    + by rewrite lookup_insert_ne.
    + by rewrite lookup_insert_ne.
    + by rewrite lookup_insert_eq.
  - by destruct (assign_no_throw (Ptr ld od) z h e h1).
Qed.

End Algorithms.

(** * Arithmetic between two matrices *)

Section Elementwise.
Context {T : Type} `{!DefaultInit T}.

Implicit Types (h : heap T) (a b r : matrix) (xs ys zs : list T).

Lemma I2_mono h h' m xs : h ⊆ h' → I2 h m xs → I2 h' m xs.
Proof.
  intros Hsub (Hl & Hc & Hb). split_and!; [done..|].
  unfold buffer in *. destruct (m_data m) as [|l o]; [done|].
  destruct (o =? 0)%N; [|done]. by eapply lookup_weaken.
Qed.

Lemma constructed_block rows cols (s : slot T) h r h1 :
  constructed rows cols s h (Ret r h1) → size r ≠ 0%N →
  ∃ lr, m_data r = Ptr lr 0 ∧ h !! lr = None ∧
        h1 !! lr = Some (replicate (N.to_nat (size r)) s).
Proof.
  intros (r' & h1' & [= <- <-] & _ & _ & _ & Hcap & Hb & Hf & _) Hs.
  unfold buffer, fresh_in, capacity, size in *.
  destruct (m_data r) as [|l o].
  { destruct (N.eqb_spec (m_capacity r) 0); [lia|done]. }
  destruct (decide (o = 0%N)) as [->|Ho]; simpl in Hb;
    [|by apply N.eqb_neq in Ho; rewrite Ho in Hb].
  eauto.
Qed.

(** The result matrix once its block holds [zs]. *)
Lemma constructed_result rows cols (s : slot T) h r h1 zs :
  constructed rows cols s h (Ret r h1) →
  N.of_nat (length zs) = size r →
  ∀ h', (size r = 0%N ∧ h' = h1 ∨
         ∃ lr, m_data r = Ptr lr 0 ∧ h' = <[lr := Val <$> zs]> h1) →
  I1 r ∧ I2 h' r zs ∧ fresh_in h r ∧ h ⊆ h'.
Proof.
  intros (r' & h1' & [= <- <-] & Hr & Hc & Hs & Hcap & Hb & Hf & Hsub) Hl h' Hh.
  unfold row_size, column_size, capacity, size in *.
  split_and!; [by unfold I1; rewrite Hr, Hc|split_and!; [done|lia|]|done|].
  - replace (N.to_nat (m_capacity r) - length zs)%nat with 0%nat by lia.
    simpl. rewrite app_nil_r.
    destruct Hh as [[Hz ->]|(lr & Hd & ->)].
    + rewrite Hb, Hz. simpl. destruct zs; [done|simpl in *; lia].
    + unfold buffer. rewrite Hd. simpl. by rewrite lookup_insert_eq.
  - destruct Hh as [[_ ->]|(lr & Hd & ->)]; [done|].
    unfold fresh_in in Hf. rewrite Hd in Hf. by apply insert_subseteq_r.
Qed.

Lemma default_slot_not_raw : default_slot (T:=T) ≠ Raw.
Proof. unfold default_slot. by destruct default_init. Qed.

Lemma assignable_replicate (s : slot T) n : s ≠ Raw → assignable (replicate n s) 0 n.
Proof. intros Hs i Hi. exists s. split; [|done]. by apply lookup_replicate_2. Qed.

Lemma elementwise_spec what op h a b xs ys :
  I1 a → I1 b → I2 h a xs → I2 h b ys →
  elementwise_outcome what op h a b xs ys (elementwise what op a b h).
Proof.
  intros Ia Ib Ha Hb. unfold elementwise. split.
  - intros Hd. by rewrite decide_True.
  - intros Hd zs Hzs. rewrite decide_False by (by intros []).
    assert (m_size b = m_size a) as Hsz.
    { unfold I1, dimensions in *. simplify_eq. by rewrite Ia, Ib, H, H0. }
    pose proof (Forall3_length_lr _ _ _ _ Hzs) as Hlz.
    pose proof (Forall3_length_lm _ _ _ _ Hzs) as Hly.
    destruct (matrix_size_spec (row_size a) (column_size a) h)
      as (r & h1 & E & Hc); pose proof Hc as (Hr & Hcol & Hs & Hcap & _).
    assert (constructed (row_size a) (column_size a) default_slot h (Ret r h1))
      as Hcon by (exists r, h1; by split).
    assert (size r = m_size a) as Hsr
      by (by rewrite Hs, Ia).
    assert (N.of_nat (length zs) = size r) as Hlen.
    { destruct Ha as (Hla & _). lia. }
    assert (dimensions r = dimensions a) as Hdim.
    { unfold dimensions, row_size, column_size in *. by rewrite Hr, Hcol. }
    assert (h ⊆ h1) as Hsub by (by destruct Hc as (_ & _ & _ & _ & _ & _ & ?)).
    erewrite bind_Ret by done.
    destruct (decide (m_size a = 0%N)) as [Hz|Hnz].
    + rewrite Hz. simpl. exists r, h1.
      destruct (constructed_result _ _ _ _ _ _ zs Hcon Hlen h1)
        as (? & ? & ? & ?); [left; split; [lia|done]|].
      split_and!; eauto using I2_mono.
    + destruct (I2_block h a xs Ha Hnz) as (la & ba & Hda & Hla & _ & Hxa & _).
      destruct (I2_block h b ys Hb) as (lb & bb & Hdb & Hlb & _ & Hyb & _);
        [lia|].
      destruct (constructed_block _ _ _ _ _ _ Hcon) as (lr & Hdr & Hfr & Hlr);
        [lia|].
      set (h' := <[lr := Val <$> zs]> h1).
      destruct (constructed_result _ _ _ _ _ _ zs Hcon Hlen h')
        as (? & ? & ? & ?); [right; eauto|].
      exists r, h'. split_and!; eauto using I2_mono.
      unfold begin. rewrite Hda, Hdb, Hdr.
      replace (N.to_nat (m_size a)) with (length xs)
        by (destruct Ha as (? & _); lia).
      erewrite bind_Ret; [done|].
      erewrite (transform2_spec op xs ys zs Hzs la 0 ba lb 0 bb lr 0);
        eauto using lookup_weaken.
      * do 2 f_equal. unfold h'. f_equal.
        rewrite <-(app_nil_r (replicate _ _)), list_inserts_0_r, app_nil_r;
          [done|].
        rewrite length_fmap, length_replicate. lia.
      * intros ->. congruence.
      * intros ->. congruence.
      * replace (length xs) with (N.to_nat (size r)) by lia.
        apply assignable_replicate, default_slot_not_raw.
Qed.

(** With equal dimensions the only outcomes are a result and undefined
    behaviour. *)
Lemma elementwise_no_throw what op h a b :
  dimensions a = dimensions b → ∀ e h', elementwise what op a b h ≠ Throw e h'.
Proof.
  intros Hd e h'. unfold elementwise. rewrite decide_False by (by intros []).
  revert h e h'. apply no_throw_bind.
  - intros h e h'.
    destruct (matrix_size_spec (row_size a) (column_size a) h)
      as (r & h1 & -> & _). done.
  - intros r. apply no_throw_bind; [apply transform2_no_throw|].
    intros _. apply no_throw_ret.
Qed.

Lemma elementwise_undefined what op h a b xs ys i x y :
  I1 a → I1 b → I2 h a xs → I2 h b ys → dimensions a = dimensions b →
  xs !! i = Some x → ys !! i = Some y → op x y = None →
  elementwise what op a b h = Undefined.
Proof.
  intros Ia Ib Ha Hb Hd Hi Hj Hop. unfold elementwise.
  rewrite decide_False by (by intros []).
  assert (m_size b = m_size a) as Hsz.
  { unfold I1, dimensions in *. simplify_eq. by rewrite Ia, Ib, H, H0. }
  assert (m_size a ≠ 0%N) as Hnz.
  { destruct Ha as (Hl & _). apply lookup_lt_Some in Hi. lia. }
  destruct (matrix_size_spec (row_size a) (column_size a) h)
    as (r & h1 & E & Hc); pose proof Hc as (Hr & Hcol & Hs & Hcap & _).
  assert (constructed (row_size a) (column_size a) default_slot h (Ret r h1))
    as Hcon by (exists r, h1; by split).
  assert (h ⊆ h1) as Hsub by (by destruct Hc as (_ & _ & _ & _ & _ & _ & ?)).
  erewrite bind_Ret by done.
  destruct (I2_block h a xs Ha Hnz) as (la & ba & Hda & Hla & _ & Hxa & _).
  destruct (I2_block h b ys Hb) as (lb & bb & Hdb & Hlb & _ & Hyb & _); [lia|].
  destruct (constructed_block _ _ _ _ _ _ Hcon) as (lr & Hdr & Hfr & Hlr).
  { rewrite Hs. unfold row_size, column_size. by rewrite <-Ia. }
  unfold begin. rewrite Hda, Hdb, Hdr.
  replace (N.to_nat (m_size a)) with (length xs)
    by (destruct Ha as (? & _); lia).
  apply bind_Undefined.
  eapply (transform2_undefined op xs ys i x y la 0 ba lb 0 bb lr 0);
    eauto using lookup_weaken.
  - intros ->. congruence.
  - intros ->. congruence.
Qed.

End Elementwise.

(** * Arithmetic with a scalar *)

Section Scalar.
Context {T : Type} `{!DefaultInit T}.

Implicit Types (h : heap T) (a r : matrix) (xs zs : list T).

Lemma transform1_no_throw op n : ∀ p d, no_throw (transform1 (T:=T) p n d op).
Proof.
  induction n as [|n IH]; intros p d; simpl.
  - apply no_throw_ret.
  - repeat (apply no_throw_bind; [|intros ?]);
      auto using load_no_throw, lift_op_no_throw, assign_no_throw.
Qed.

Lemma scalarwise_no_throw op a : no_throw (scalarwise op a).
Proof.
  apply no_throw_bind.
  - intros h e h'.
    destruct (matrix_size_spec (row_size a) (column_size a) h)
      as (r & h1 & -> & _). done.
  - intros r. apply no_throw_bind; [apply transform1_no_throw|].
    intros _. apply no_throw_ret.
Qed.

Lemma scalarwise_spec op h a xs zs :
  I1 a → I2 h a xs → Forall2 (λ x z, op x = Some z) xs zs →
  ∃ r h', scalarwise op a h = Ret r h' ∧
    dimensions r = dimensions a ∧ I1 r ∧ I2 h' r zs ∧
    fresh_in h r ∧ h ⊆ h' ∧ I2 h' a xs.
Proof.
  intros Ia Ha Hzs. unfold scalarwise.
  pose proof (Forall2_length _ _ _ Hzs) as Hlz.
  destruct (matrix_size_spec (row_size a) (column_size a) h)
    as (r & h1 & E & Hc); pose proof Hc as (Hr & Hcol & Hs & Hcap & _).
  assert (constructed (row_size a) (column_size a) default_slot h (Ret r h1))
    as Hcon by (exists r, h1; by split).
  assert (size r = m_size a) as Hsr by (by rewrite Hs, Ia).
  assert (N.of_nat (length zs) = size r) as Hlen.
  { destruct Ha as (Hla & _). lia. }
  assert (dimensions r = dimensions a) as Hdim.
  { unfold dimensions, row_size, column_size in *. by rewrite Hr, Hcol. }
  assert (h ⊆ h1) as Hsub by (by destruct Hc as (_ & _ & _ & _ & _ & _ & ?)).
  erewrite bind_Ret by done.
  destruct (decide (m_size a = 0%N)) as [Hz|Hnz].
  - rewrite Hz. simpl. exists r, h1.
    destruct (constructed_result _ _ _ _ _ _ zs Hcon Hlen h1)
      as (? & ? & ? & ?); [left; split; [lia|done]|].
    split_and!; eauto using I2_mono.
  - destruct (I2_block h a xs Ha Hnz) as (la & ba & Hda & Hla & _ & Hxa & _).
    destruct (constructed_block _ _ _ _ _ _ Hcon) as (lr & Hdr & Hfr & Hlr);
      [lia|].
    set (h' := <[lr := Val <$> zs]> h1).
    destruct (constructed_result _ _ _ _ _ _ zs Hcon Hlen h')
      as (? & ? & ? & ?); [right; eauto|].
    exists r, h'. split_and!; eauto using I2_mono.
    unfold begin. rewrite Hda, Hdr.
    replace (N.to_nat (m_size a)) with (length xs)
      by (destruct Ha as (? & _); lia).
    erewrite bind_Ret; [done|].
    erewrite (transform1_spec op xs zs Hzs la 0 ba lr 0);
      eauto using lookup_weaken.
    + do 2 f_equal. unfold h'. f_equal.
      rewrite <-(app_nil_r (replicate _ _)), list_inserts_0_r, app_nil_r;
        [done|].
      rewrite length_fmap, length_replicate. lia.
    + intros ->. congruence.
    + replace (length xs) with (N.to_nat (size r)) by lia.
      apply assignable_replicate, default_slot_not_raw.
Qed.

End Scalar.

(** Division of [int] by a nonzero [int] truncates toward zero: the
    magnitude of the quotient is the magnitude of the exact quotient rounded
    down. *)
Lemma int_divides_truncates (x s z : Z) :
  std_divides (Divisible := Int.int_divides) x s = Some z →
  s ≠ 0%Z ∧ z = (x ÷ s)%Z ∧
  (Z.abs z * Z.abs s ≤ Z.abs x < Z.abs z * Z.abs s + Z.abs s)%Z.
Proof.
  unfold std_divides, Int.int_divides, Int.checked.
  destruct (Z.eqb_spec s 0) as [|Hs]; [done|].
  destruct (Int.in_range _); [|done]. intros [= <-]. split_and!; [done..| |].
  - rewrite <-Z.quot_abs by done.
    rewrite Z.quot_div_nonneg by lia.
    pose proof (Z.div_mod (Z.abs x) (Z.abs s)).
    pose proof (Z.mod_pos_bound (Z.abs x) (Z.abs s)). lia.
  - rewrite <-Z.quot_abs by done.
    rewrite Z.quot_div_nonneg by lia.
    pose proof (Z.div_mod (Z.abs x) (Z.abs s)).
    pose proof (Z.mod_pos_bound (Z.abs x) (Z.abs s)). lia.
Qed.

(** * C4: the four elementwise operations *)




(** * C5: multiplication and division by a scalar *)




(** * C10: division by a matrix is not guarded *)



(** * C8: comparison of two matrices *)

Section Comparison.
Context {T : Type}.

Implicit Types (h : heap T) (xs ys : list T).

Lemma lexicographical_compare_spec `{!LessThanComparable T} xs : ∀ ys l1 o1 b1 l2 o2 b2 h,
  h !! l1 = Some b1 → h !! l2 = Some b2 →
  holds_at b1 (N.to_nat o1) xs → holds_at b2 (N.to_nat o2) ys →
  ∃ r, lexicographical_compare (Ptr l1 o1) (length xs) (Ptr l2 o2) (length ys) h
       = Ret r h ∧ (r = true ↔ lex_lt xs ys).
Proof.
  induction xs as [|x xs IH]; intros [|y ys] l1 o1 b1 l2 o2 b2 h H1 H2 Hx Hy;
    simpl.
  - exists false. split; [done|]. split; [done|]. inversion 1.
  - exists true. split; [done|]. split; [constructor|done].
  - exists false. split; [done|]. split; [done|]. inversion 1.
  - apply holds_at_cons in Hx as [Hx0 Hx].
    apply holds_at_cons in Hy as [Hy0 Hy].
    erewrite bind_Ret by eauto using load_Val.
    erewrite bind_Ret by eauto using load_Val.
    destruct (lt_op x y) eqn:Hxy.
    { exists true. split; [done|]. split; [by constructor|done]. }
    destruct (lt_op y x) eqn:Hyx.
    { exists false. split; [done|]. split; [done|].
      inversion 1; congruence. }
    destruct (IH ys l1 (o1 + 1)%N b1 l2 (o2 + 1)%N b2 h) as (r & Er & Hr);
      rewrite ?to_nat_add_1; try done.
    exists r. split; [done|]. rewrite Hr. split.
    + by constructor.
    + inversion 1; [congruence|done].
Qed.

Lemma equal_spec `{!EqualityComparable T} xs : ∀ ys l1 o1 b1 l2 o2 b2 h,
  length xs = length ys →
  h !! l1 = Some b1 → h !! l2 = Some b2 →
  holds_at b1 (N.to_nat o1) xs → holds_at b2 (N.to_nat o2) ys →
  ∃ r, equal (Ptr l1 o1) (length xs) (Ptr l2 o2) h = Ret r h ∧
       (r = true ↔ Forall2 (λ x y, eq_op x y = true) xs ys).
Proof.
  induction xs as [|x xs IH]; intros [|y ys] l1 o1 b1 l2 o2 b2 h Hl H1 H2 Hx Hy;
    simplify_eq/=.
  - exists true. split; [done|]. split; [constructor|done].
  - apply holds_at_cons in Hx as [Hx0 Hx].
    apply holds_at_cons in Hy as [Hy0 Hy].
    erewrite bind_Ret by eauto using load_Val.
    erewrite bind_Ret by eauto using load_Val.
    destruct (eq_op x y) eqn:Hxy.
    + destruct (IH ys l1 (o1 + 1)%N b1 l2 (o2 + 1)%N b2 h) as (r & Er & Hr);
        rewrite ?to_nat_add_1; try done.
      exists r. split; [done|]. rewrite Hr. split.
      * by constructor.
      * by inversion 1.
    + exists false. split; [done|]. split; [done|].
      inversion 1; congruence.
Qed.

Lemma operator_lt_spec `{!LessThanComparable T} h lhs rhs xs ys :
  I2 h lhs xs → I2 h rhs ys →
  ∃ r, operator_lt lhs rhs h = Ret r h ∧ (r = true ↔ lex_lt xs ys).
Proof.
  intros Hl Hr. unfold operator_lt, begin.
  replace (N.to_nat (m_size lhs)) with (length xs)
    by (destruct Hl as (? & _); lia).
  replace (N.to_nat (m_size rhs)) with (length ys)
    by (destruct Hr as (? & _); lia).
  destruct (decide (m_size lhs = 0%N)) as [Hz|Hnz].
  { rewrite (I2_nil _ _ _ Hl Hz). destruct ys as [|y ys]; simpl.
    - exists false. split; [done|]. split; [done|]. inversion 1.
    - exists true. split; [done|]. split; [constructor|done]. }
  destruct (decide (m_size rhs = 0%N)) as [Hz'|Hnz'].
  { rewrite (I2_nil _ _ _ Hr Hz'). destruct xs as [|x xs]; simpl.
    - exists false. split; [done|]. split; [done|]. inversion 1.
    - exists false. split; [done|]. split; [done|]. inversion 1. }
  destruct (I2_block h lhs xs Hl Hnz) as (l1 & b1 & -> & H1 & _ & Hx & _).
  destruct (I2_block h rhs ys Hr Hnz') as (l2 & b2 & -> & H2 & _ & Hy & _).
  by eapply lexicographical_compare_spec.
Qed.

Lemma operator_eq_spec `{!EqualityComparable T} h lhs rhs xs ys :
  I1 lhs → I1 rhs → I2 h lhs xs → I2 h rhs ys →
  ∃ r, operator_eq lhs rhs h = Ret r h ∧
       (dimensions lhs ≠ dimensions rhs → r = false) ∧
       (dimensions lhs = dimensions rhs →
        (r = true ↔ Forall2 (λ x y, eq_op x y = true) xs ys)).
Proof.
  intros Il Ir Hl Hr. unfold operator_eq.
  destruct (decide (dimensions lhs ≠ dimensions rhs)) as [Hd|Hd].
  { exists false. by split_and!. }
  apply dec_stable in Hd.
  assert (m_size rhs = m_size lhs) as Hsz.
  { unfold I1, dimensions in *. simplify_eq. by rewrite Il, Ir, H, H0. }
  assert (length xs = length ys) as Hlen.
  { destruct Hl as (? & _), Hr as (? & _). lia. }
  unfold begin.
  replace (N.to_nat (m_size lhs)) with (length xs)
    by (destruct Hl as (? & _); lia).
  destruct (decide (m_size lhs = 0%N)) as [Hz|Hnz].
  { rewrite (I2_nil _ _ _ Hl Hz) in *. destruct ys; [|done]. simpl.
    exists true. split_and!; [done..|]. intros _. split; [constructor|done]. }
  destruct (I2_block h lhs xs Hl Hnz) as (l1 & b1 & -> & H1 & _ & Hx & _).
  destruct (I2_block h rhs ys Hr) as (l2 & b2 & -> & H2 & _ & Hy & _); [lia|].
  destruct (equal_spec xs ys l1 0 b1 l2 0 b2 h) as (r & Er & Hr'); try done.
  exists r. by split_and!.
Qed.

End Comparison.

(** C8, as amended.  For two matrices that satisfy I2, with element
    sequences [xs] and [ys] in row-major order: [lhs < rhs] is true exactly
    when [xs] is lexicographically smaller than [ys]; [lhs > rhs] is
    [rhs < lhs]; [lhs <= rhs] is the negation of [rhs < lhs]; [lhs >= rhs] is
    the negation of [lhs < rhs]; [lhs != rhs] is the negation of
    [lhs == rhs] whenever that returns; [lhs == rhs] is false when the
    dimensions differ; and when the dimensions agree and both matrices
    satisfy I1 it is true exactly when the elements are pairwise equal over
    the whole range.  None of them changes the free store. *)
Theorem comparison_operators_spec {T : Type}
    `{!EqualityComparable T, !LessThanComparable T}
    (h : heap T) (lhs rhs : matrix) (xs ys : list T) :
  I2 h lhs xs → I2 h rhs ys →
  ∃ blt bgt : bool,
    operator_lt lhs rhs h = Ret blt h ∧ (blt = true ↔ lex_lt xs ys) ∧
    operator_lt rhs lhs h = Ret bgt h ∧ (bgt = true ↔ lex_lt ys xs) ∧
    operator_gt lhs rhs h = Ret bgt h ∧
    operator_le lhs rhs h = Ret (negb bgt) h ∧
    operator_ge lhs rhs h = Ret (negb blt) h ∧
    (∀ beq h', operator_eq lhs rhs h = Ret beq h' →
       operator_ne lhs rhs h = Ret (negb beq) h') ∧
    (dimensions lhs ≠ dimensions rhs →
     operator_eq lhs rhs h = Ret false h) ∧
    (I1 lhs → I1 rhs → dimensions lhs = dimensions rhs →
     ∃ beq : bool, operator_eq lhs rhs h = Ret beq h ∧
       (beq = true ↔ Forall2 (λ x y, eq_op x y = true) xs ys)).
Proof.
  intros Hl Hr.
  destruct (operator_lt_spec h lhs rhs xs ys Hl Hr) as (lt & Elt & Hlt).
  destruct (operator_lt_spec h rhs lhs ys xs Hr Hl) as (gt & Egt & Hgt).
  exists lt, gt. split_and!; try done.
  - unfold operator_le. by erewrite bind_Ret.
  - unfold operator_ge. by erewrite bind_Ret.
  - intros beq h' E. unfold operator_ne. by erewrite bind_Ret.
  - intros Hd. unfold operator_eq. by rewrite decide_True.
  - intros Il Ir Hd.
    destruct (operator_eq_spec h lhs rhs xs ys Il Ir Hl Hr)
      as (eq & Eeq & _ & Heq).
    exists eq. split; [done|by apply Heq].
Qed.

Lemma comparison_operators_witness :
  operator_lt Examples.A Examples.G Examples.store = Ret true Examples.store ∧
  operator_ge Examples.A Examples.G Examples.store = Ret false Examples.store ∧
  operator_eq Examples.A Examples.C Examples.store = Ret false Examples.store.
Proof.
  destruct (comparison_operators_spec Examples.store Examples.A Examples.G
              [1; 2; 3; 4]%Z [1; 2; 3; 5]%Z)
    as (lt & gt & Elt & Hlt & _ & _ & _ & _ & Ege & _);
    [concrete_I2 | concrete_I2 |].
  destruct (comparison_operators_spec Examples.store Examples.A Examples.C
              [1; 2; 3; 4]%Z [1; 2; 3; 4; 5; 6]%Z)
    as (lt' & gt' & _ & _ & _ & _ & _ & _ & _ & _ & Hdiff & _);
    [concrete_I2 | concrete_I2 |].
  assert (lt = true) as ->.
  { apply Hlt. do 3 (apply lex_lt_tail; [reflexivity..|]).
    by apply lex_lt_head. }
  split_and!; [exact Elt | exact Ege |].
  apply Hdiff. vm_compute. discriminate.
Defined.

(** C8 as it is worded, for every pair of matrices, fails on matrices that
    the public interface produces.  After
    [matrix<int> s(2, 2, 7); s.reserve(3, 3); matrix<int> t(3, 3, 7);] the
    two have the same dimensions, [s] has four elements and [t] nine:
    [s == t] is true although the elements are not pairwise equal over the
    whole range (and [s < t] is true as well), and [t == s] reads past the
    elements of [s], which is undefined. *)
Lemma comparison_operators_after_reserve :
  ∃ s t h,
    (m ← matrix_size_value 2 2 7%Z; s ← reserve m 3 3;
     t ← matrix_size_value 3 3 7%Z; mret (s, t)) ∅ = Ret (s, t) h ∧
    dimensions s = dimensions t ∧ ¬ I1 s ∧
    I2 h s [7; 7; 7; 7]%Z ∧ I2 h t (replicate 9 7%Z) ∧
    operator_eq s t h = Ret true h ∧
    ¬ Forall2 (λ x y, eq_op x y = true) [7; 7; 7; 7]%Z (replicate 9 7%Z) ∧
    operator_lt s t h = Ret true h ∧
    operator_eq t s h = Undefined.
Proof.
  eexists _, _, _. split; [vm_compute; reflexivity|].
  split_and!; [reflexivity|vm_compute; discriminate|concrete_I2|concrete_I2
              |vm_compute; reflexivity| |vm_compute; reflexivity
              |vm_compute; reflexivity].
  intros Hall. apply Forall2_length in Hall. discriminate.
Qed.

(** * C9: clear *)

Section Clear.
Context {T : Type}.

Implicit Types (h : heap T) (m : matrix) (xs : list T).

(** The two shapes [I2] allows for [m_data]. *)
Lemma I2_cases h m xs :
  I2 h m xs →
  let b := (Val <$> xs) ++ replicate (N.to_nat (m_capacity m) - length xs) Raw in
  length b = N.to_nat (m_capacity m) ∧ holds_at b 0 xs ∧
  (m_data m = nullptr ∧ m_capacity m = 0%N ∧ xs = [] ∨
   ∃ l, m_data m = Ptr l 0 ∧ h !! l = Some b).
Proof.
  intros (Hl & Hc & Hb). simpl. split_and!.
  - rewrite length_app, length_fmap, length_replicate. lia.
  - apply holds_at_take. rewrite drop_0, take_app_length'; [done|].
    by rewrite length_fmap.
  - unfold buffer in Hb. destruct (m_data m) as [|l o].
    + left. destruct (N.eqb_spec (m_capacity m) 0) as [Hz|]; [|done].
      split_and!; [done..|]. destruct xs; [done|simpl in *; lia].
    + right. destruct (decide (o = 0%N)) as [->|Ho]; simpl in Hb;
        [|by apply N.eqb_neq in Ho; rewrite Ho in Hb].
      eauto.
Qed.

Lemma replicate_split (n k : nat) (s : slot T) :
  n ≤ k → replicate k s = replicate n s ++ replicate (k - n) s.
Proof. intros Hn. rewrite <-replicate_add. f_equal. lia. Qed.

End Clear.

(** X28.  For a matrix that satisfies I1 and I2, [clear()] returns with
    [size()], [row_size()] and [column_size()] zero, no element alive, and
    the capacity, the data pointer and the block it names (still allocated,
    with [capacity] slots of raw storage) as before: no block of the free
    store is released and no other block is touched. *)
Theorem clear_spec {T : Type} (h : heap T) (m : matrix) (xs : list T) :
  I1 m → I2 h m xs →
  ∃ m' h', clear m h = Ret m' h' ∧
    size m' = 0%N ∧ row_size m' = 0%N ∧ column_size m' = 0%N ∧
    capacity m' = capacity m ∧ m_data m' = m_data m ∧
    I2 h' m' [] ∧
    dom h' = dom h ∧ (∀ l, m_data m ≠ Ptr l 0 → h' !! l = h !! l).
Proof.
  intros Hi Hm. unfold clear.
  destruct (N.eqb_spec (m_size m) 0) as [Hz|Hnz]; simpl.
  - exists m, h. unfold size, row_size, column_size, capacity.
    unfold I1 in Hi. rewrite Hz in Hi. symmetry in Hi.
    apply dims_size_0_inv in Hi as [Hr Hc].
    split_and!; try done. by rewrite <-(I2_nil _ _ _ Hm Hz).
  - destruct (I2_cases h m xs Hm) as (Hlen & Hx & [(_ & Hc & ->)|(l & Hd & Hl)]).
    { destruct Hm as (Hs & _). simpl in Hs. lia. }
    destruct Hm as (Hs & Hcap & _).
    set (b := (Val <$> xs) ++ replicate (N.to_nat (m_capacity m) - length xs) Raw)
      in *.
    exists (Matrix 0 0 0 (m_capacity m) (m_data m)),
           (<[l := replicate (N.to_nat (m_capacity m)) Raw]> h).
    split_and!; try done.
    + rewrite Hd. erewrite bind_Ret; [done|].
      rewrite destroy_write, (write_slots_spec _ l 0 b) by
        (rewrite ?length_replicate; first [done | lia]).
      do 2 f_equal. unfold b.
      rewrite list_inserts_0_r by (rewrite length_replicate, length_fmap; lia).
      rewrite (replicate_split (length xs) (N.to_nat (m_capacity m))) by lia.
      do 2 f_equal. lia.
    + unfold I2, buffer; simpl. rewrite Hd. simpl.
      rewrite lookup_insert_eq, Nat.sub_0_r. split_and!; [done|lia|done].
    + by apply dom_insert_lookup_L.
    + intros l' Hne. rewrite lookup_insert_ne; [done|]. intros ->. by rewrite Hd in Hne.
Qed.

Lemma clear_witness :
  ∃ m' h', clear Examples.A Examples.store = Ret m' h' ∧
    size m' = 0%N ∧ row_size m' = 0%N ∧ column_size m' = 0%N ∧
    capacity m' = 4%N ∧ buffer h' m' = Some [Raw; Raw; Raw; Raw].
Proof.
  destruct (clear_spec Examples.store Examples.A [1; 2; 3; 4]%Z)
    as (m' & h' & E & Hs & Hr & Hc & Hcap & Hd & (_ & _ & Hb) & _);
    [reflexivity | concrete_I2 |].
  exists m', h'. split_and!; try done.
  rewrite Hb. unfold capacity in Hcap. by rewrite Hcap.
Defined.

(** C9, the code at the failing input.  [matrix<int> m; m.reserve(2, 2);]
    leaves a matrix with two rows, two columns and no element ([reserve]
    sets the two counts and the capacity and leaves the size).  The body of
    [clear()] is guarded by [if (m_size)]: the call returns with the two
    counts still 2, where the claim, and the comment above [clear()] in the
    source, say that the dimensions are set to zero. *)
Lemma clear_after_reserve :
  ∃ m h,
    reserve (T:=Z) matrix_default 2 2 ∅ = Ret m h ∧
    I2 h m [] ∧ ¬ I1 m ∧
    clear m h = Ret m h ∧
    row_size m = 2%N ∧ column_size m = 2%N ∧ size m = 0%N.
Proof.
  eexists _, _. split; [vm_compute; reflexivity|].
  split_and!; [concrete_I2|vm_compute; discriminate|reflexivity..].
Qed.

(** * C3: reserve *)

Section Reserve.
Context {T : Type}.

Implicit Types (h : heap T) (m : matrix) (xs : list T).

(** Without growth nothing happens: the [if] has no other branch. *)
Lemma reserve_no_growth h m (new_rows new_columns : N) :
  (dims_size new_rows new_columns ≤ capacity m)%N →
  reserve m new_rows new_columns h = Ret m h.
Proof.
  intros Hle. unfold reserve, capacity in *.
  by destruct (N.ltb_spec (m_capacity m) (dims_size new_rows new_columns));
    [lia|].
Qed.

(** With growth: a fresh block of the new capacity holds the live
    elements at its front, the former block is gone, and rows, columns and
    capacity are the new ones; [m_size] is the former one. *)
Lemma reserve_growth h m xs (new_rows new_columns : N) :
  I2 h m xs →
  (capacity m < dims_size new_rows new_columns)%N →
  ∃ m' h', reserve m new_rows new_columns h = Ret m' h' ∧
    row_size m' = new_rows ∧ column_size m' = new_columns ∧
    capacity m' = dims_size new_rows new_columns ∧
    size m' = size m ∧
    I2 h' m' xs ∧ fresh_in h m' ∧
    (∀ l, m_data m = Ptr l 0 → h' !! l = None) ∧
    (∀ l, m_data m ≠ Ptr l 0 → m_data m' ≠ Ptr l 0 → h' !! l = h !! l).
Proof.
  intros Hm Hlt. unfold reserve, capacity in *.
  destruct (N.ltb_spec (m_capacity m) (dims_size new_rows new_columns));
    [|lia].
  set (n := dims_size new_rows new_columns) in *.
  destruct (_M_allocate_pos n h) as (l' & Hl' & Ea); [lia|].
  erewrite bind_Ret by done.
  pose proof Hm as (Hs & Hcap & _).
  destruct (I2_cases h m xs Hm) as (Hlen & Hx & [(Hd & Hc & ->)|(l & Hd & Hl)]).
  - simpl in Hs.
    exists (Matrix new_rows new_columns (m_size m) n (Ptr l' 0)),
           (<[l' := replicate (N.to_nat n) Raw]> h).
    split_and!; try done.
    + by rewrite Hd, <-Hs, Hc.
    + unfold I2, buffer; simpl.
      rewrite lookup_insert_eq, Nat.sub_0_r. split_and!; [done|lia|done].
    + intros l Hl. by rewrite Hd in Hl.
    + intros l Hne Hne'. rewrite lookup_insert_ne; [done|]. by intros ->.
  - set (b := (Val <$> xs) ++ replicate (N.to_nat (m_capacity m) - length xs) Raw)
      in *.
    assert (l ≠ l') as Hll by (intros ->; congruence).
    set (nb := (Val <$> xs) ++ replicate (N.to_nat n - length xs) Raw).
    exists (Matrix new_rows new_columns (m_size m) n (Ptr l' 0)),
           (delete l (<[l' := nb]> h)).
    split_and!; try done.
    + rewrite Hd.
      replace (N.to_nat (m_size m)) with (length xs) by lia.
      erewrite bind_Ret; last first.
      { eapply (uninitialized_move_n_spec xs l 0 b l' 0); try done.
        - by rewrite lookup_insert_ne.
        - by rewrite lookup_insert_eq.
        - rewrite length_replicate. lia. }
      rewrite insert_insert_eq.
      erewrite bind_Ret; last first.
      { rewrite destroy_write.
        apply (write_slots_spec _ l 0 b).
        - by rewrite lookup_insert_ne.
        - rewrite length_replicate. lia. }
      erewrite bind_Ret; last first.
      { unfold _M_deallocate, operator_delete. by rewrite lookup_insert_eq. }
      unfold mret, Heap_ret. f_equal.
      rewrite delete_insert_eq. f_equal. f_equal. unfold nb.
      rewrite (replicate_split (length xs) (N.to_nat n)) by lia.
      by rewrite list_inserts_0_r by (by rewrite length_replicate, length_fmap).
    + unfold I2, buffer; simpl.
      rewrite lookup_delete_ne, lookup_insert_eq by done.
      split_and!; [done|lia|done].
    + intros l0 Hl0. rewrite Hd in Hl0. injection Hl0 as <-.
      by rewrite lookup_delete_eq.
    + intros l0 Hne Hne'. simpl in Hne'.
      rewrite lookup_delete_ne, lookup_insert_ne; [done| |].
      * intros ->. done.
      * intros ->. by rewrite Hd in Hne.
Qed.

End Reserve.

(** C3, the code at the failing input.  A 2x2 matrix has capacity 4;
    [reserve(1, 2)] asks for a capacity of 2, takes no branch and returns
    with 2 rows and 2 columns still, where the claim and the comment above
    [reserve] in the source say the 1 and the 2 are stored. *)
Theorem reserve_without_growth_keeps_dimensions :
  ∃ m h, matrix_size_value 2 2 7%Z ∅ = Ret m h ∧
    capacity m = 4%N ∧ dims_size 1 2 = 2%N ∧
    ∃ m', reserve m 1 2 h = Ret m' h ∧
      row_size m' = 2%N ∧ column_size m' = 2%N.
Proof.
  destruct (matrix_size_value_spec 2 2 7%Z ∅)
    as (m & h & E & Hr & Hc & Hs & Hcap & _).
  exists m, h. split_and!; [done|by rewrite Hcap, Hs|done|].
  exists m. split_and!; [|done..].
  apply reserve_no_growth. rewrite Hcap, Hs. by vm_compute.
Qed.

(** After a growth the size is the former one while rows and columns are
    the new ones: I1 is lost, and [clear()], whose body is guarded by
    [if (m_size)], then leaves the rows and columns of an empty matrix as
    they are. *)
Lemma reserve_growth_leaves_size :
  (∃ m h, matrix_size_value 2 2 7%Z ∅ = Ret m h ∧
     ∃ m' h', reserve m 3 3 h = Ret m' h' ∧
       row_size m' = 3%N ∧ column_size m' = 3%N ∧ capacity m' = 9%N ∧
       size m' = 4%N ∧ ¬ I1 m' ∧ I2 h' m' [7; 7; 7; 7]%Z) ∧
  (∃ m h, reserve (T:=Z) matrix_default 2 2 ∅ = Ret m h ∧
     size m = 0%N ∧ row_size m = 2%N ∧ ¬ I1 m ∧ clear m h = Ret m h).
Proof.
  split.
  - eexists _, _. split; [by vm_compute|].
    eexists _, _. split; [by vm_compute|].
    by split_and!.
  - eexists _, _. split; [by vm_compute|]. by split_and!.
Qed.

(** * C2: move construction and move assignment *)

Lemma matrix_move_spec (m : matrix) :
  matrix_move m = (m, Matrix 0 0 0 (m_capacity m) nullptr).
Proof. by destruct m. Qed.

(** C2, the code at the failing input.  A 1x1 matrix is moved from: the
    new object is what the source was, the source is left with a null
    pointer and zero rows, columns and size, and with the capacity 1 it had,
    where the claim (and the comment above the move constructor, a
    default-constructed state) say 0.  Move assignment into a
    default-constructed matrix leaves the same capacity behind; and between
    two matrices that compare equal it assigns nothing, the source keeping
    its block and all its fields. *)
Theorem move_keeps_source_capacity :
  ∃ m h, matrix_size_value 1 1 5%Z ∅ = Ret m h ∧
    capacity m = 1%N ∧
    (matrix_move m).1 = m ∧
    m_data (matrix_move m).2 = nullptr ∧
    size (matrix_move m).2 = 0%N ∧
    row_size (matrix_move m).2 = 0%N ∧
    column_size (matrix_move m).2 = 0%N ∧
    capacity (matrix_move m).2 = 1%N ∧
    assign_move matrix_default m h
    = Ret (m, Matrix 0 0 0 1 nullptr) h ∧
    ∃ m2 h2, matrix_size_value 1 1 5%Z h = Ret m2 h2 ∧
      assign_move m m2 h2 = Ret (m, m2) h2 ∧ capacity m2 = 1%N ∧
      m_data m2 ≠ nullptr.
Proof.
  eexists _, _. split; [by vm_compute|].
  split_and!; try done.
  eexists _, _. split; [by vm_compute|].
  split_and!; done.
Qed.

(** * C1: construction from a nested list *)

Section InitList.
Context {T : Type}.

Implicit Types (h : heap T) (rows : list (list T)).

Lemma length_concat_two rows :
  Forall (λ row, length row = 2) rows → length (concat rows) = 2 * length rows.
Proof.
  induction 1 as [|row rows Hrow _ IH]; simpl; [done|].
  rewrite length_app, IH, Hrow. lia.
Qed.

(** With two columns the constant of the loop is the right one: the rows
    land one after the other. *)
Lemma init_list_rows_two rows : ∀ (off : N) blk l h,
  Forall (λ row, length row = 2) rows →
  h !! l = Some blk →
  N.to_nat off + 2 * length rows ≤ length blk →
  init_list_rows rows 2 (Ptr l 0) off h
  = Ret () (<[l := list_inserts (N.to_nat off) (Val <$> concat rows) blk]> h).
Proof.
  induction rows as [|row rows IH]; intros off blk l h Hrows Hl Hlen; simpl in *.
  - by rewrite insert_id.
  - apply Forall_cons in Hrows as [Hrow Hrows]. rewrite Hrow. simpl.
    change (N.to_nat 2) with 2%nat.
    erewrite bind_Ret; last first.
    { rewrite move_list_write by lia.
      rewrite take_ge by lia.
      apply (write_slots_spec _ l (0 + off) blk); [done|].
      rewrite length_fmap. lia. }
    rewrite N.add_0_l.
    erewrite (IH (off + 2)%N);
      [|exact Hrows|apply lookup_insert_eq|rewrite length_inserts; lia].
    rewrite insert_insert_eq. do 2 f_equal.
    rewrite fmap_app, list_inserts_app_l, length_fmap, Hrow.
    f_equal. lia.
Qed.

(** A row of another length stops the loop: the rows before it have been
    written, the rows after it are not looked at. *)
Lemma init_list_rows_two_mismatch pre bad post : ∀ (off : N) blk l h,
  Forall (λ row, length row = 2) pre → length bad ≠ 2 →
  h !! l = Some blk →
  N.to_nat off + 2 * length pre ≤ length blk →
  init_list_rows (pre ++ bad :: post) 2 (Ptr l 0) off h
  = Throw (invalid_argument "Columns must be all the same size")
          (<[l := list_inserts (N.to_nat off) (Val <$> concat pre) blk]> h).
Proof.
  induction pre as [|row pre IH]; intros off blk l h Hpre Hbad Hl Hlen;
    simpl in *.
  - destruct (N.eqb_spec (N.of_nat (length bad)) 2) as [Hb|_]; [lia|].
    simpl. unfold throw. by rewrite insert_id.
  - apply Forall_cons in Hpre as [Hrow Hpre]. rewrite Hrow. simpl.
    change (N.to_nat 2) with 2%nat.
    erewrite bind_Ret; last first.
    { rewrite move_list_write by lia.
      rewrite take_ge by lia.
      apply (write_slots_spec _ l (0 + off) blk); [done|].
      rewrite length_fmap. lia. }
    rewrite N.add_0_l.
    erewrite (IH (off + 2)%N);
      [|exact Hpre|exact Hbad|apply lookup_insert_eq|rewrite length_inserts; lia].
    rewrite insert_insert_eq. do 2 f_equal.
    rewrite fmap_app, list_inserts_app_l, length_fmap, Hrow.
    f_equal. lia.
Qed.

(** So for a nested list of rows of length 2 the constructor does what C1
    says: the matrix satisfies I1 and I2 with the rows laid out one after the
    other. *)
Lemma matrix_init_list_two rows h :
  rows ≠ [] → Forall (λ row, length row = 2) rows →
  (2 * N.of_nat (length rows) < size_modulus)%N →
  ∃ m h', matrix_init_list rows h = Ret m h' ∧
    row_size m = N.of_nat (length rows) ∧ column_size m = 2%N ∧
    I1 m ∧ I2 h' m (concat rows) ∧ fresh_in h m ∧ h ⊆ h'.
Proof.
  intros Hne Hrows Hfit. destruct rows as [|first rest]; [done|].
  unfold matrix_init_list.
  pose proof (Forall_inv Hrows) as Hfirst. simpl in Hfirst. rewrite Hfirst.
  set (rows := first :: rest) in *.
  assert (dims_size (N.of_nat (length rows)) (N.of_nat 2)
          = (2 * N.of_nat (length rows))%N) as Hsz.
  { rewrite dims_size_product; [lia|lia|by unfold rows|done]. }
  rewrite Hsz.
  destruct (_M_allocate_pos (2 * N.of_nat (length rows)) h) as (l & Hl & Ea).
  { unfold rows. simpl. lia. }
  erewrite bind_Ret by done.
  pose proof (length_concat_two rows Hrows) as Hcat.
  erewrite bind_Ret; last first.
  { eapply (init_list_rows_two rows 0); [done|apply lookup_insert_eq|].
    rewrite length_replicate. lia. }
  rewrite insert_insert_eq.
  eexists _, _. split; [done|].
  assert (list_inserts (N.to_nat 0) (Val <$> concat rows)
            (replicate (N.to_nat (2 * N.of_nat (length rows))) Raw)
          = Val <$> concat rows) as ->.
  { rewrite <-(app_nil_r (replicate _ _)), list_inserts_0_r, app_nil_r; [done|].
    rewrite length_fmap, length_replicate. lia. }
  unfold row_size, column_size, I1, I2, buffer, fresh_in.
  cbn [m_rows m_columns m_size m_capacity m_data N.eqb].
  split_and!; try done; try lia.
  - rewrite lookup_insert_eq, Hcat.
    replace (N.to_nat (2 * N.of_nat (length rows)) - 2 * length rows)%nat
      with 0%nat by lia.
    by rewrite app_nil_r.
  - by apply insert_subseteq.
Qed.

End InitList.

(** C1, the code at the failing input.  For [{{1,2,3},{4,5,6}}] the
    matrix has 2 rows, 3 columns and 6 slots, but the second row is written
    from offset 2 on, not 3: the block is [1 2 4 5 6] followed by a slot that
    was never constructed, so that the value of row 1, column 0 sits at
    offset 2 and [flatten()] reads raw storage.  The assignment from the
    same list does the same, and for [{{1},{2}}] the second row is written
    past the end of the block. *)
Theorem init_list_advances_by_two :
  (∃ m h, matrix_init_list [[1; 2; 3]; [4; 5; 6]]%Z ∅ = Ret m h ∧
     row_size m = 2%N ∧ column_size m = 3%N ∧ size m = 6%N ∧
     buffer h m = Some [Val 1; Val 2; Val 4; Val 5; Val 6; Raw]%Z ∧
     (p ← at_ m 1 0; load p) h = Ret 5%Z h ∧
     flatten m h = Undefined ∧
     assign_init_list matrix_default [[1; 2; 3]; [4; 5; 6]]%Z ∅ = Ret m h) ∧
  matrix_init_list [[1]; [2]]%Z ∅ = Undefined ∧
  (∃ m h, matrix_init_list [[1; 2]; [3; 4]]%Z ∅ = Ret m h ∧
     I2 h m [1; 2; 3; 4]%Z) ∧
  (∃ h, matrix_init_list [[1; 2]; [3]; [4; 5]]%Z ∅
        = Throw (invalid_argument "Columns must be all the same size") h).
Proof.
  split_and!.
  - eexists _, _. split; [by vm_compute|]. by split_and!.
  - done.
  - eexists _, _. split; [by vm_compute|]. by split_and!.
  - eexists. by vm_compute.
Qed.

(** * Further properties of the container *)

Lemma bind_Ret_inv {T A B} (m : Heap T A) (f : A → Heap T B) h b h' :
  (m ≫= f) h = Ret b h' → ∃ a h1, m h = Ret a h1 ∧ f a h1 = Ret b h'.
Proof.
  unfold mbind, Heap_bind. destruct (m h) as [a h1| |]; [|done..]. eauto.
Qed.

Section Copies.
Context {T : Type}.

Implicit Types (h : heap T) (m other : matrix) (xs : list T).

(** The allocation and the copy loop that the copy constructor and the copy
    assignment share; [r] and [c] are the rows and columns stored. *)
(** The allocation and the copy loop shared by the copy constructor and the
    copy assignment: the store gains one block, which holds the elements. *)
Lemma copy_into_block h other xs (r c : N) :
  I2 h other xs →
  ∃ data h',
    (data ← _M_allocate (m_size other);
     uninitialized_copy_n (m_data other) (N.to_nat (m_size other)) data ;;
     mret (Matrix r c (m_size other) (m_size other) data)) h
    = Ret (Matrix r c (m_size other) (m_size other) data) h' ∧
    (m_size other = 0%N ∧ data = nullptr ∧ h' = h ∨
     ∃ l', data = Ptr l' 0 ∧ h !! l' = None ∧ h' = <[l' := Val <$> xs]> h).
Proof.
  intros Ho. pose proof Ho as (Hlen & Hcap & _).
  destruct (decide (m_size other = 0%N)) as [Hz|Hnz].
  - pose proof (I2_nil _ _ _ Ho Hz) as ->. rewrite Hz.
    exists nullptr, h. split; [done|]. by left.
  - destruct (I2_block h other xs Ho Hnz) as (l & b & Hd & Hl & _ & Hx & _).
    destruct (_M_allocate_pos (m_size other) h Hnz) as (l' & Hl' & Ea).
    assert (l ≠ l') as Hne by (intros ->; congruence).
    exists (Ptr l' 0), (<[l' := Val <$> xs]> h). split; [|right; eauto].
    erewrite bind_Ret by done. rewrite Hd.
    replace (N.to_nat (m_size other)) with (length xs) by lia.
    erewrite bind_Ret; [done|]. unfold uninitialized_copy_n.
    erewrite (uninitialized_move_n_spec xs l 0 b l' 0
                (replicate (length xs) Raw)); try done.
    + rewrite insert_insert_eq. do 2 f_equal.
      rewrite <-(app_nil_r (replicate _ _)), list_inserts_0_r, app_nil_r;
        [done|].
      by rewrite length_fmap, length_replicate.
    + by rewrite lookup_insert_ne.
    + by rewrite lookup_insert_eq.
    + rewrite length_replicate. lia.
Qed.

Lemma copy_into_fresh h other xs (r c : N) :
  I2 h other xs →
  ∃ data h',
    (data ← _M_allocate (m_size other);
     uninitialized_copy_n (m_data other) (N.to_nat (m_size other)) data ;;
     mret (Matrix r c (m_size other) (m_size other) data)) h
    = Ret (Matrix r c (m_size other) (m_size other) data) h' ∧
    I2 h' (Matrix r c (m_size other) (m_size other) data) xs ∧
    fresh_in h (Matrix r c (m_size other) (m_size other) data) ∧
    h ⊆ h'.
Proof.
  intros Ho. pose proof Ho as (Hlen & Hcap & _).
  destruct (copy_into_block h other xs r c Ho)
    as (data & h' & E & [(Hz & -> & ->)|(l' & -> & Hl' & ->)]);
    eexists _, _; (split; [exact E|]).
  - pose proof (I2_nil _ _ _ Ho Hz) as ->. rewrite Hz.
    split_and!; [|done|done]. unfold I2, buffer. by split_and!.
  - split_and!; [|done|by apply insert_subseteq].
    unfold I2, buffer.
    cbn [m_rows m_columns m_size m_capacity m_data N.eqb].
    rewrite lookup_insert_eq. split_and!; [done|lia|].
    replace (N.to_nat (m_size other) - length xs)%nat with 0%nat by lia.
    by rewrite app_nil_r.
Qed.

(** Writing through the address of slot [i] of a matrix changes element [i]
    of its sequence and nothing else. *)
Lemma assign_element h m xs (i : nat) (v : T) :
  I2 h m xs → i < length xs →
  ∃ l h', m_data m = Ptr l 0 ∧ h !! l ≠ None ∧
    assign (Ptr l (N.of_nat i)) v h = Ret () h' ∧
    I2 h' m (<[i := v]> xs) ∧
    ∀ l', l' ≠ l → h' !! l' = h !! l'.
Proof.
  intros Hm Hi. pose proof Hm as (Hlen & Hcap & _).
  destruct (I2_block h m xs Hm) as (l & b & Hd & Hl & Hb & Hx & Hbe); [lia|].
  destruct (lookup_lt_is_Some_2 xs i Hi) as [x Hxi].
  pose proof (Hx i x Hxi) as Hbi. simpl in Hbi.
  exists l, (<[l := <[i := Val v]> b]> h). split_and!; [done|by rewrite Hl| | |].
  - erewrite assign_Ret; [by rewrite Nat2N.id|done|].
    exists (Val x). by rewrite Nat2N.id.
  - unfold I2, buffer. rewrite Hd, length_insert. simpl.
    rewrite lookup_insert_eq. split_and!; [done..|].
    rewrite Hbe at 1. rewrite insert_app_l by (by rewrite length_fmap).
    by rewrite list_fmap_insert.
  - intros l' Hne. by rewrite lookup_insert_ne.
Qed.

End Copies.

Section Access.
Context {T : Type}.

Implicit Types (h : heap T) (m : matrix) (xs : list T).

Lemma at_in_range h m (row column : N) :
  (row < row_size m)%N → (column < column_size m)%N →
  at_ m row column h
  = Ret (ptr_add (m_data m) (size_mul (column_size m) row + column)) h.
Proof.
  intros Hr Hc. unfold at_, _M_range_check.
  destruct (N.leb_spec (row_size m) row); [lia|].
  destruct (N.leb_spec (column_size m) column); [lia|]. simpl.
  erewrite bind_Ret by done. by rewrite ptr_add_add.
Qed.

Lemma at_out_of_range h m (row column : N) :
  (row_size m ≤ row ∨ column_size m ≤ column)%N →
  at_ m row column h
  = Throw (out_of_range "matrix::_M_range_check - index out of range.") h.
Proof.
  intros Hout. unfold at_, _M_range_check. apply bind_Throw.
  destruct (N.leb_spec (row_size m) row), (N.leb_spec (column_size m) column);
    simpl; try done; lia.
Qed.

(** For a matrix whose dimensions fit, the offset of an in-range point. *)
Lemma flat_offset h m xs (row column : N) :
  I1 m → I2 h m xs →
  (row_size m * column_size m < size_modulus)%N →
  (row < row_size m)%N → (column < column_size m)%N →
  (size_mul (column_size m) row + column = row * column_size m + column)%N ∧
  N.to_nat (row * column_size m + column) < length xs.
Proof.
  intros H1 H2 Hfit Hr Hc.
  assert (size_mul (column_size m) row = (row * column_size m)%N) as Hmul.
  { unfold size_mul. rewrite N.mul_comm. apply N.mod_small. nia. }
  pose proof (flat_offset_lt _ _ _ _ Hr Hc) as Hlt.
  assert (m_size m = (row_size m * column_size m)%N) as Hsz.
  { rewrite H1. unfold row_size, column_size in *.
    apply dims_size_product; [done|lia..]. }
  destruct H2 as (Hlen & _). split; [by rewrite Hmul|lia].
Qed.

Lemma at_reads h m xs (row column : N) x :
  I1 m → I2 h m xs →
  (row_size m * column_size m < size_modulus)%N →
  (row < row_size m)%N → (column < column_size m)%N →
  xs !! N.to_nat (row * column_size m + column) = Some x →
  (p ← at_ m row column; load p) h = Ret x h.
Proof.
  intros H1 H2 Hfit Hr Hc Hx.
  destruct (flat_offset h m xs row column H1 H2 Hfit Hr Hc) as (Hoff & Hlt).
  destruct (I2_block h m xs H2) as (l & b & Hd & Hl & _ & Hb & _).
  { destruct H2 as (Hlen & _). lia. }
  erewrite bind_Ret by (by apply at_in_range).
  rewrite Hd, Hoff. simpl. eapply load_Val; [done|].
  apply Hb in Hx. by rewrite N.add_0_l.
Qed.

Lemma at_writes h m xs (row column : N) (v : T) :
  I1 m → I2 h m xs →
  (row_size m * column_size m < size_modulus)%N →
  (row < row_size m)%N → (column < column_size m)%N →
  ∃ l h', m_data m = Ptr l 0 ∧ h !! l ≠ None ∧
    (p ← at_ m row column; assign p v) h = Ret () h' ∧
    I2 h' m (<[N.to_nat (row * column_size m + column) := v]> xs) ∧
    ∀ l', l' ≠ l → h' !! l' = h !! l'.
Proof.
  intros H1 H2 Hfit Hr Hc.
  destruct (flat_offset h m xs row column H1 H2 Hfit Hr Hc) as (Hoff & Hlt).
  destruct (assign_element h m xs _ v H2 Hlt) as (l & h' & Hd & Hl & Ea & Hm' & Hfr).
  exists l, h'. split_and!; try done.
  erewrite bind_Ret by (by apply at_in_range).
  rewrite Hd, Hoff. simpl. rewrite N.add_0_l. by rewrite N2Nat.id in Ea.
Qed.

(** [I2] only looks at the block of the matrix. *)
Lemma I2_frame h h' m xs :
  (∀ l, m_data m = Ptr l 0 → h' !! l = h !! l) → I2 h m xs → I2 h' m xs.
Proof.
  intros Hfr (Hl & Hc & Hb). split_and!; [done..|].
  unfold buffer in *. destruct (m_data m) as [|l o]; [done|].
  destruct (decide (o = 0%N)) as [->|Ho]; simpl in *; [by rewrite Hfr|].
  apply N.eqb_neq in Ho. by rewrite Ho in *.
Qed.

Lemma flat_offset_inj (cols row column row' column' : N) :
  (column < cols)%N → (column' < cols)%N →
  (row * cols + column = row' * cols + column')%N →
  row = row' ∧ column = column'.
Proof.
  intros Hc Hc' E.
  destruct (N.lt_trichotomy row row') as [Hlt|[->|Hgt]]; [nia|lia|nia].
Qed.

End Access.

(** X1.  The copy constructor, on a matrix that satisfies I2, returns a
    matrix with the same rows, columns and size whose capacity is that size
    (spare capacity is not copied) and whose block is a fresh one holding
    the same elements in the same order; the store it started from, the
    block of the source included, is unchanged. *)
Theorem copy_constructor_spec {T : Type} (h : heap T) (other : matrix)
    (xs : list T) :
  I2 h other xs →
  ∃ m h', matrix_copy other h = Ret m h' ∧
    row_size m = row_size other ∧ column_size m = column_size other ∧
    size m = size other ∧ capacity m = size other ∧
    I2 h' m xs ∧ flatten m h' = Ret xs h' ∧
    fresh_in h m ∧ h ⊆ h' ∧ I2 h' other xs.
Proof.
  intros Ho.
  destruct (copy_into_fresh h other xs (m_rows other) (m_columns other) Ho)
    as (data & h' & E & Hm & Hf & Hsub).
  eexists _, h'. split; [exact E|].
  split_and!; try done; eauto using flatten_spec, I2_mono.
Qed.

Lemma copy_constructor_witness :
  ∃ m h', matrix_copy Examples.C Examples.store = Ret m h' ∧
    capacity m = 6%N ∧ flatten m h' = Ret [1; 2; 3; 4; 5; 6]%Z h' ∧
    fresh_in Examples.store m.
Proof.
  destruct (copy_constructor_spec Examples.store Examples.C
              [1; 2; 3; 4; 5; 6]%Z)
    as (m & h' & E & _ & _ & _ & Hc & _ & Hfl & Hfr & _); [concrete_I2|].
  by exists m, h'.
Defined.

(** X2.  A copy does not alias its source: after [copy = m] and
    [copy.at(row, column) = v] the source still holds its elements, and the
    copy holds them with the one at [row * columns + column] replaced. *)
Theorem copy_is_independent {T : Type} (h : heap T) (other : matrix)
    (xs : list T) (row column : N) (v : T) :
  I1 other → I2 h other xs →
  (row_size other * column_size other < size_modulus)%N →
  (row < row_size other)%N → (column < column_size other)%N →
  ∃ m h1 h2, matrix_copy other h = Ret m h1 ∧
    (p ← at_ m row column; assign p v) h1 = Ret () h2 ∧
    I2 h2 other xs ∧ flatten other h2 = Ret xs h2 ∧
    I2 h2 m (<[N.to_nat (row * column_size other + column) := v]> xs).
Proof.
  intros H1 H2 Hfit Hr Hc.
  destruct (copy_into_fresh h other xs (m_rows other) (m_columns other) H2)
    as (data & h1 & E & Hm & Hf & Hsub).
  set (m := Matrix (m_rows other) (m_columns other) (m_size other)
                   (m_size other) data) in *.
  assert (I1 m) as Hm1 by exact H1.
  destruct (at_writes h1 m xs row column v Hm1 Hm Hfit Hr Hc)
    as (l & h2 & Hd & Hl & Ew & Hm2 & Hfr).
  assert (I2 h2 other xs) as Ho2.
  { apply (I2_frame h1); [|by eapply I2_mono].
    intros lo Hlo. apply Hfr. intros ->.
    unfold fresh_in in Hf. rewrite Hd in Hf.
    destruct (flat_offset h other xs row column H1 H2 Hfit Hr Hc) as (_ & Hlt).
    destruct (I2_block h other xs H2) as (l' & b & Hd' & Hl' & _).
    { destruct H2 as (Hlen & _). lia. }
    rewrite Hlo in Hd'. simplify_eq. }
  exists m, h1, h2. split_and!; eauto using flatten_spec.
Qed.

Lemma copy_is_independent_witness :
  ∃ m h1 h2, matrix_copy Examples.A Examples.store = Ret m h1 ∧
    (p ← at_ m 0 0; assign p 9%Z) h1 = Ret () h2 ∧
    flatten Examples.A h2 = Ret [1; 2; 3; 4]%Z h2 ∧
    I2 h2 m [9; 2; 3; 4]%Z.
Proof.
  destruct (copy_is_independent Examples.store Examples.A [1; 2; 3; 4]%Z
              0 0 9%Z)
    as (m & h1 & h2 & E & Ew & _ & Hfl & Hm);
    [reflexivity | concrete_I2 | reflexivity | reflexivity | reflexivity |].
  by exists m, h1, h2.
Defined.

(** X3.  Assignment through [at]: for an in-range point of a matrix that
    satisfies I1 and I2 and whose dimensions fit, [m.at(row, column) = v]
    replaces the element of index [row * columns + column] and no other;
    reading the point back gives [v], reading any other in-range point gives
    what it held, and no other block of the store changes. *)
Theorem at_assignment_spec {T : Type} (h : heap T) (m : matrix) (xs : list T)
    (row column : N) (v : T) :
  I1 m → I2 h m xs →
  (row_size m * column_size m < size_modulus)%N →
  (row < row_size m)%N → (column < column_size m)%N →
  ∃ h', (p ← at_ m row column; assign p v) h = Ret () h' ∧
    I2 h' m (<[N.to_nat (row * column_size m + column) := v]> xs) ∧
    (p ← at_ m row column; load p) h' = Ret v h' ∧
    (∀ row' column', (row' < row_size m)%N → (column' < column_size m)%N →
       (row', column') ≠ (row, column) →
       ∃ x, xs !! N.to_nat (row' * column_size m + column') = Some x ∧
            (p ← at_ m row' column'; load p) h' = Ret x h') ∧
    (∀ l, m_data m ≠ Ptr l 0 → h' !! l = h !! l).
Proof.
  intros H1 H2 Hfit Hr Hc.
  destruct (flat_offset h m xs row column H1 H2 Hfit Hr Hc) as (_ & Hlt).
  destruct (at_writes h m xs row column v H1 H2 Hfit Hr Hc)
    as (l & h' & Hd & Hl & Ew & Hm' & Hfr).
  exists h'. split_and!; try done.
  - eapply at_reads; try done. by apply list_lookup_insert_eq.
  - intros row' column' Hr' Hc' Hne.
    destruct (flat_offset h m xs row' column' H1 H2 Hfit Hr' Hc') as (_ & Hlt').
    destruct (lookup_lt_is_Some_2 xs _ Hlt') as [x Hx].
    exists x. split; [done|].
    eapply at_reads; try done. rewrite list_lookup_insert_ne; [done|].
    intros E. apply N2Nat.inj in E.
    destruct (flat_offset_inj _ _ _ _ _ Hc Hc' E). congruence.
  - intros l' Hl'. apply Hfr. intros ->. by rewrite Hd in Hl'.
Qed.

Lemma at_assignment_witness :
  ∃ h', (p ← at_ Examples.C 1 2; assign p 9%Z) Examples.store = Ret () h' ∧
    I2 h' Examples.C [1; 2; 3; 4; 5; 9]%Z ∧
    (p ← at_ Examples.C 1 2; load p) h' = Ret 9%Z h' ∧
    (p ← at_ Examples.C 0 2; load p) h' = Ret 3%Z h'.
Proof.
  destruct (at_assignment_spec Examples.store Examples.C
              [1; 2; 3; 4; 5; 6]%Z 1 2 9%Z)
    as (h' & E & Hm & Hback & Hother & _);
    [reflexivity | concrete_I2 | reflexivity | reflexivity | reflexivity |].
  destruct (Hother 0%N 2%N) as (x & Hx & Hread);
    [reflexivity | reflexivity | discriminate |].
  injection Hx as <-. by exists h'.
Defined.

Section Assignments.
Context {T : Type} `{!EqualityComparable T}.

Implicit Types (h : heap T) (this other m : matrix) (xs ys : list T).

(** What [*this != other] evaluates to. *)
Lemma operator_ne_spec h this other xs ys :
  I1 this → I1 other → I2 h this xs → I2 h other ys →
  ∃ ne : bool, operator_ne this other h = Ret ne h ∧
    (ne = false ↔
     dimensions this = dimensions other ∧
     Forall2 (λ x y, eq_op x y = true) xs ys).
Proof.
  intros It Io Ht Ho.
  destruct (operator_eq_spec h this other xs ys It Io Ht Ho)
    as (r & Er & Hdiff & Hsame).
  exists (negb r). split.
  - unfold operator_ne. by erewrite bind_Ret.
  - destruct (decide (dimensions this = dimensions other)) as [Hd|Hd].
    + rewrite negb_false_iff, (Hsame Hd). split; [done | by intros [_ ?]].
    + rewrite (Hdiff Hd). split; [done | by intros [? _]].
Qed.

(** Two matrices whose dimension pairs differ compare unequal without a
    look at their elements. *)
Lemma operator_ne_dimensions h this other :
  dimensions this ≠ dimensions other → operator_ne this other h = Ret true h.
Proof.
  intros Hd. unfold operator_ne, operator_eq. by rewrite decide_True.
Qed.

Lemma operator_ne_empty h this other :
  dimensions this = dimensions other → m_size this = 0%N →
  operator_ne this other h = Ret false h.
Proof.
  intros Hd Hs. unfold operator_ne, operator_eq.
  rewrite decide_False by (by intros []). by rewrite Hs.
Qed.

End Assignments.

(** X4.  Copy assignment between two matrices that satisfy I1 and I2
    compares them first.  When they compare equal (same dimensions, elements
    pairwise equal) nothing is assigned.  Otherwise [this] becomes a copy of
    [other]: same rows, columns and size, capacity equal to that size, the
    elements in a fresh block; [other] is unchanged, and the block [this]
    owned before is neither destroyed nor released: it is still in the store
    with its elements. *)
Theorem copy_assignment_spec {T : Type} `{!EqualityComparable T}
    (h : heap T) (this other : matrix) (xs ys : list T) :
  I1 this → I1 other → I2 h this xs → I2 h other ys →
  ∃ ne : bool, operator_ne this other h = Ret ne h ∧
    (ne = false ↔
     dimensions this = dimensions other ∧
     Forall2 (λ x y, eq_op x y = true) xs ys) ∧
    (ne = false → assign_copy this other h = Ret this h) ∧
    (ne = true →
     ∃ m h', assign_copy this other h = Ret m h' ∧
       row_size m = row_size other ∧ column_size m = column_size other ∧
       size m = size other ∧ capacity m = size other ∧
       I1 m ∧ I2 h' m ys ∧ fresh_in h m ∧ h ⊆ h' ∧
       I2 h' other ys ∧ I2 h' this xs).
Proof.
  intros It Io Ht Ho.
  destruct (operator_ne_spec h this other xs ys It Io Ht Ho) as (ne & Ene & Hne).
  exists ne. split_and!; [done..| |].
  - intros ->. unfold assign_copy. erewrite bind_Ret by done. reflexivity.
  - intros ->. unfold assign_copy. erewrite bind_Ret by done.
    destruct (copy_into_fresh h other ys (m_rows other) (m_columns other) Ho)
      as (data & h' & E & Hm & Hf & Hsub).
    exists (Matrix (m_rows other) (m_columns other)
                   (m_size other) (m_size other) data), h'.
    split; [exact E|].
    split_and!; try done; eauto using I2_mono.
Qed.

Lemma copy_assignment_witness :
  (∃ m h', assign_copy Examples.A Examples.B Examples.store = Ret m h' ∧
     I2 h' m [5; 6; 7; 8]%Z ∧ I2 h' Examples.A [1; 2; 3; 4]%Z ∧
     fresh_in Examples.store m) ∧
  assign_copy Examples.A Examples.A Examples.store
  = Ret Examples.A Examples.store.
Proof.
  destruct (copy_assignment_spec Examples.store Examples.A Examples.B
              [1; 2; 3; 4]%Z [5; 6; 7; 8]%Z)
    as (ne & Ene & Hne & _ & Hcopy);
    [reflexivity | reflexivity | concrete_I2 | concrete_I2 |].
  destruct (copy_assignment_spec Examples.store Examples.A Examples.A
              [1; 2; 3; 4]%Z [1; 2; 3; 4]%Z)
    as (ne' & Ene' & Hne' & Hnoop & _);
    [reflexivity | reflexivity | concrete_I2 | concrete_I2 |].
  split.
  - destruct Hcopy as (m & h' & E & _ & _ & _ & _ & _ & Hm & Hf & _ & _ & Ht).
    { destruct ne; [done|]. destruct Hne as [Hne _].
      destruct (Hne eq_refl) as [_ Hall]. by inversion Hall. }
    by exists m, h'.
  - apply Hnoop, Hne'. split; [done|]. by repeat constructor.
Defined.

(** X5.  Move assignment between two matrices that satisfy I1 and I2.
    When they compare equal (in particular in a self-assignment, when every
    element is equal to itself) nothing is assigned and the source keeps its
    block.  Otherwise [this] takes the five fields of [other], and [other] is
    left with a null pointer, zero rows, columns and size, and the capacity
    it had.  The store is not touched in either case: the block [this] owned
    before is not released. *)
Theorem move_assignment_spec {T : Type} `{!EqualityComparable T}
    (h : heap T) (this other : matrix) (xs ys : list T) :
  I1 this → I1 other → I2 h this xs → I2 h other ys →
  ∃ ne : bool, operator_ne this other h = Ret ne h ∧
    (ne = false ↔
     dimensions this = dimensions other ∧
     Forall2 (λ x y, eq_op x y = true) xs ys) ∧
    (ne = false → assign_move this other h = Ret (this, other) h) ∧
    (ne = true →
     assign_move this other h
     = Ret (other, Matrix 0 0 0 (m_capacity other) nullptr) h) ∧
    (Forall (λ x, eq_op x x = true) xs →
     assign_move this this h = Ret (this, this) h ∧
     assign_copy this this h = Ret this h).
Proof.
  intros It Io Ht Ho.
  destruct (operator_ne_spec h this other xs ys It Io Ht Ho) as (ne & Ene & Hne).
  exists ne. split_and!; [done..| | |].
  - intros ->. unfold assign_move. erewrite bind_Ret by done. reflexivity.
  - intros ->. unfold assign_move. erewrite bind_Ret by done. by destruct other.
  - intros Hrefl.
    destruct (operator_ne_spec h this this xs xs It It Ht Ht) as (ne' & Ene' & Hne').
    assert (ne' = false) as ->.
    { apply Hne'. split; [done|]. by apply Forall_Forall2_diag. }
    unfold assign_move, assign_copy. erewrite !bind_Ret by done. done.
Qed.

Lemma move_assignment_witness :
  assign_move Examples.A Examples.B Examples.store
  = Ret (Examples.B, Matrix 0 0 0 4 nullptr) Examples.store ∧
  assign_move Examples.A Examples.A Examples.store
  = Ret (Examples.A, Examples.A) Examples.store.
Proof.
  destruct (move_assignment_spec Examples.store Examples.A Examples.B
              [1; 2; 3; 4]%Z [5; 6; 7; 8]%Z)
    as (ne & Ene & Hne & _ & Hmove & Hself);
    [reflexivity | reflexivity | concrete_I2 | concrete_I2 |].
  split.
  - apply Hmove. destruct ne; [done|]. destruct Hne as [Hne _].
    destruct (Hne eq_refl) as [_ Hall]. by inversion Hall.
  - apply Hself. by repeat constructor.
Defined.

Section Destruction.
Context {T : Type}.

Implicit Types (h : heap T) (this other m : matrix) (xs ys : list T).

(** The destructor of a matrix that satisfies I2 destroys the elements and
    releases the block, if there is one. *)
Lemma destructor_Ret h m xs :
  I2 h m xs →
  destructor m h
  = Ret (Matrix 0 0 0 0 (m_data m))
        (match m_data m with Ptr l _ => delete l h | nullptr => h end).
Proof.
  intros Hm. pose proof Hm as (_ & Hcap & _).
  destruct (I2_cases _ _ _ Hm) as (Hlen & _ & [(Hd & _ & _)|(l & Hd & Hl)]);
    unfold destructor; rewrite Hd; [done|].
  erewrite bind_Ret; [reflexivity|].
  erewrite bind_Ret; last first.
  { rewrite destroy_write. apply write_slots_spec; [done|].
    rewrite length_replicate, Hlen. lia. }
  unfold _M_deallocate, operator_delete.
  rewrite lookup_insert_eq. simpl. by rewrite delete_insert_eq.
Qed.

(** Nothing can be destroyed through a pointer the store has no block for. *)
Lemma destructor_dangling h m l o :
  m_data m = Ptr l o → h !! l = None → destructor m h = Undefined.
Proof.
  intros Hd Hl. unfold destructor. rewrite Hd.
  unfold mbind, Heap_bind.
  destruct (N.to_nat (m_size m)) as [|n]; simpl.
  - unfold _M_deallocate, operator_delete. by rewrite Hl.
  - unfold mbind, Heap_bind, destroy_at. by rewrite Hl.
Qed.

End Destruction.

(** X6.  The destructor of a matrix that satisfies I2 returns, sets rows,
    columns, size and capacity to 0 and leaves the pointer as it was.  With a
    null pointer the store is unchanged; otherwise exactly the block of the
    matrix is released, all other blocks are kept, and running the destructor
    again on the fields the object had is undefined. *)
Theorem destructor_spec {T : Type} (h : heap T) (m : matrix) (xs : list T) :
  I2 h m xs →
  ∃ h', destructor m h = Ret (Matrix 0 0 0 0 (m_data m)) h' ∧
    (m_data m = nullptr → h' = h) ∧
    (∀ l o, m_data m = Ptr l o →
       h' !! l = None ∧ (∀ l', l' ≠ l → h' !! l' = h !! l') ∧
       destructor m h' = Undefined).
Proof.
  intros Hm. eexists. split; [by eapply destructor_Ret|]. split.
  - by intros ->.
  - intros l o Hd. rewrite Hd. split_and!.
    + apply lookup_delete_eq.
    + intros l' Hl'. by apply lookup_delete_ne.
    + eapply destructor_dangling; [done|]. apply lookup_delete_eq.
Qed.

Lemma destructor_witness :
  ∃ h', destructor Examples.A Examples.store = Ret (Matrix 0 0 0 0 (Ptr 1%positive 0)) h' ∧
    h' !! 1%positive = None ∧
    h' !! 2%positive = Examples.store !! 2%positive ∧
    destructor Examples.A h' = Undefined.
Proof.
  destruct (destructor_spec Examples.store Examples.A [1; 2; 3; 4]%Z)
    as (h' & E & _ & Hptr); [concrete_I2|].
  destruct (Hptr 1%positive 0%N eq_refl) as (Hgone & Hkept & Htwice).
  exists h'. split_and!; [exact E | exact Hgone | by apply Hkept | exact Htwice].
Defined.

(** X7.  Moving a matrix that satisfies I2 and then destroying both the new
    object and the moved-from one, in either order, releases the block once.
    The destructor of the moved-from object never touches the store. *)
Theorem move_then_destroy_both {T : Type} (h : heap T) (m n m' : matrix)
    (xs : list T) :
  I2 h m xs → matrix_move m = (n, m') →
  ∃ h1, destructor n h = Ret (Matrix 0 0 0 0 (m_data m)) h1 ∧
    destructor m' h1 = Ret (Matrix 0 0 0 0 nullptr) h1 ∧
    destructor m' h = Ret (Matrix 0 0 0 0 nullptr) h ∧
    h1 = match m_data m with Ptr l _ => delete l h | nullptr => h end.
Proof.
  intros Hm. rewrite matrix_move_spec. intros [= <- <-].
  eexists. split; [by eapply destructor_Ret|]. by split_and!.
Qed.

Lemma move_then_destroy_both_witness :
  ∃ h1,
    destructor Examples.A Examples.store = Ret (Matrix 0 0 0 0 (Ptr 1%positive 0)) h1 ∧
    destructor (Matrix 0 0 0 4 nullptr) h1 = Ret (Matrix 0 0 0 0 nullptr) h1 ∧
    h1 = delete 1%positive Examples.store.
Proof.
  destruct (move_then_destroy_both Examples.store Examples.A
              Examples.A (Matrix 0 0 0 4 nullptr) [1; 2; 3; 4]%Z)
    as (h1 & E1 & E2 & _ & Eh); [concrete_I2 | reflexivity |].
  exists h1. split_and!; [exact E1 | exact E2 | exact Eh].
Defined.

(** X8.  [swap] between two matrices neither of which has the dimensions
    (0, 0) exchanges all five fields of the two objects and leaves the store
    as it was: no element is read, copied or destroyed. *)
Theorem swap_exchanges {T : Type} `{!EqualityComparable T}
    (h : heap T) (this other : matrix) :
  dimensions this ≠ (0, 0)%N → dimensions other ≠ (0, 0)%N →
  swap this other h = Ret (other, this) h.
Proof.
  intros Ht Ho. unfold swap. rewrite matrix_move_spec.
  cbn beta iota. erewrite bind_Ret; last first.
  { unfold assign_move.
    erewrite bind_Ret; last (apply operator_ne_dimensions; intros E; by apply Ht).
    reflexivity. }
  cbn beta iota. erewrite bind_Ret; last first.
  { unfold assign_move.
    erewrite bind_Ret; last (apply operator_ne_dimensions; intros E; by apply Ho).
    reflexivity. }
  cbn beta iota. by destruct this, other.
Qed.

Lemma swap_exchanges_witness :
  swap Examples.A Examples.C Examples.store
  = Ret (Examples.C, Examples.A) Examples.store.
Proof.
  apply (swap_exchanges Examples.store Examples.A Examples.C);
    vm_compute; discriminate.
Defined.

(** X9.  [swap] called on a matrix [this] that satisfies I1 and has the
    dimensions (0, 0), with an [other] that has not: [this] takes the five
    fields of [other], but [other] does not take those of [this].  It is left
    with zero rows, columns and size, a null pointer and the capacity it had
    itself; the store is unchanged, so a block [this] owned is not released
    and no object points to it any more. *)
Theorem swap_into_empty {T : Type} `{!EqualityComparable T}
    (h : heap T) (this other : matrix) :
  I1 this → dimensions this = (0, 0)%N → dimensions other ≠ (0, 0)%N →
  swap this other h
  = Ret (other, Matrix 0 0 0 (m_capacity other) nullptr) h.
Proof.
  intros It Ht Ho. unfold swap. rewrite matrix_move_spec.
  assert (m_size this = 0%N) as Hs.
  { unfold I1, dimensions in *. simplify_eq. rewrite It. by rewrite H, H0. }
  cbn beta iota. erewrite bind_Ret; last first.
  { unfold assign_move.
    erewrite bind_Ret; last (by apply operator_ne_empty).
    reflexivity. }
  cbn beta iota. erewrite bind_Ret; last first.
  { unfold assign_move.
    erewrite bind_Ret; last (apply operator_ne_dimensions; by rewrite Ht).
    reflexivity. }
  cbn beta iota. by destruct other.
Qed.

Lemma swap_into_empty_witness :
  swap (Matrix 0 0 0 0 nullptr) Examples.A Examples.store
  = Ret (Examples.A, Matrix 0 0 0 4 nullptr) Examples.store.
Proof.
  apply (swap_into_empty Examples.store (Matrix 0 0 0 0 nullptr) Examples.A);
    [reflexivity | reflexivity | vm_compute; discriminate].
Defined.

(** X10.  [swap] called with an [other] that satisfies I1 and I2 and has the
    dimensions (0, 0): the local object that took the fields of [other] is
    destroyed at the end with them, so the block of [other], if it has one,
    is released.  [other] takes the fields of [this] when [this] has other
    dimensions than (0, 0), and [this] is then left with zero rows, columns
    and size, a null pointer and the capacity it had; when [this] has the
    dimensions (0, 0) too it is unchanged and [other] loses its pointer. *)
Theorem swap_from_empty {T : Type} `{!EqualityComparable T}
    (h : heap T) (this other : matrix) (ys : list T) :
  I1 this → I1 other → I2 h other ys → dimensions other = (0, 0)%N →
  swap this other h
  = Ret (if decide (dimensions this = (0, 0)%N)
         then (this, Matrix 0 0 0 (m_capacity other) nullptr)
         else (Matrix 0 0 0 (m_capacity this) nullptr, this))
        (match m_data other with Ptr l _ => delete l h | nullptr => h end).
Proof.
  intros It Io Hm Ho. unfold swap. rewrite matrix_move_spec.
  assert (∀ m, I1 m → dimensions m = (0, 0)%N → m_size m = 0%N) as Hsize.
  { intros m Im Hd. unfold I1, dimensions in *. simplify_eq.
    rewrite Im. by rewrite H, H0. }
  destruct (decide (dimensions this = (0, 0)%N)) as [Ht|Ht].
  - erewrite bind_Ret; last first.
    { unfold assign_move.
    erewrite bind_Ret; last (by apply operator_ne_empty).
    reflexivity. }
    cbn beta iota. erewrite bind_Ret; last first.
    { unfold assign_move.
    erewrite bind_Ret; last (apply operator_ne_empty; [congruence|by apply Hsize]).
    reflexivity. }
    cbn beta iota. erewrite bind_Ret; [|by eapply destructor_Ret]. done.
  - erewrite bind_Ret; last first.
    { unfold assign_move.
    erewrite bind_Ret; last (apply operator_ne_dimensions; intros E; by apply Ht).
    reflexivity. }
    cbn beta iota. erewrite bind_Ret; last first.
    { unfold assign_move.
    erewrite bind_Ret; last (apply operator_ne_empty; [by rewrite Ho|done]).
    reflexivity. }
    cbn beta iota. erewrite bind_Ret; [|by eapply destructor_Ret].
    by destruct this.
Qed.

Lemma swap_from_empty_witness :
  swap Examples.A (Matrix 0 0 0 0 nullptr) Examples.store
  = Ret (Matrix 0 0 0 4 nullptr, Examples.A) Examples.store.
Proof.
  apply (swap_from_empty Examples.store Examples.A (Matrix 0 0 0 0 nullptr) []);
    [reflexivity | reflexivity | concrete_I2 | reflexivity].
Defined.

Section LinearAccess.
Context {T : Type}.

Implicit Types (h : heap T) (m : matrix) (xs : list T).

(** Reading the slot [i] of the block of a matrix that satisfies I2: the
    element [i] when there is one, nothing defined past the last element. *)
Lemma load_slot h m xs (i : N) :
  I2 h m xs →
  load (ptr_add (m_data m) i) h
  = match xs !! N.to_nat i with Some x => Ret x h | None => Undefined end.
Proof.
  intros Hm.
  destruct (I2_cases _ _ _ Hm) as (_ & Hb & [(Hd & _ & ->)|(l & Hd & Hl)]);
    rewrite Hd; simpl; [done|].
  unfold load. rewrite Hl, N.add_0_l.
  destruct (xs !! N.to_nat i) as [x|] eqn:Hx.
  - pose proof (Hb _ _ Hx) as Hv. simpl in Hv. by rewrite Hv.
  - apply lookup_ge_None in Hx.
    rewrite lookup_app_r by (rewrite length_fmap; lia).
    rewrite length_fmap.
    destruct (replicate _ _ !! _) as [s|] eqn:Hs; [|done].
    by apply lookup_replicate in Hs as [-> _].
Qed.

Lemma load_first h m xs :
  I2 h m xs →
  load (m_data m) h
  = match xs !! 0%nat with Some x => Ret x h | None => Undefined end.
Proof.
  intros Hm. change 0%nat with (N.to_nat 0).
  rewrite <- (load_slot h m xs 0 Hm).
  destruct (m_data m); simpl; [done|]. by rewrite N.add_0_r.
Qed.

End LinearAccess.

(** X11.  [operator[]] is unchecked linear access in row-major order.  On a
    matrix that satisfies I2 the reference [m[step]] reads element [step] of
    the flattened matrix when [step] is below the size; at or past the size
    the read is undefined, never an exception.  For an index pair in range
    (matrix with I1, [rows * columns] representable) [at(row, column)]
    returns the same reference as [m[row * columns + column]]. *)
Theorem operator_index_spec {T : Type} (h : heap T) (m : matrix)
    (xs : list T) (step : N) :
  I2 h m xs →
  (∀ x, xs !! N.to_nat step = Some x →
     load (operator_index m step) h = Ret x h) ∧
  ((size m ≤ step)%N → load (operator_index m step) h = Undefined) ∧
  (∀ row column,
     I1 m → (row_size m * column_size m < size_modulus)%N →
     (row < row_size m)%N → (column < column_size m)%N →
     at_ m row column h
     = Ret (operator_index m (row * column_size m + column)) h).
Proof.
  intros Hm. unfold operator_index. rewrite (load_slot h m xs step Hm).
  split_and!.
  - by intros x ->.
  - intros Hge. destruct Hm as (Hlen & _). unfold size in Hge.
    by rewrite (lookup_ge_None_2 xs (N.to_nat step)) by lia.
  - intros row column Im Hfit Hr Hc.
    rewrite at_in_range by done.
    by destruct (flat_offset h m xs row column Im Hm Hfit Hr Hc) as [-> _].
Qed.

Lemma operator_index_witness :
  load (operator_index Examples.C 4) Examples.store = Ret 5%Z Examples.store ∧
  load (operator_index Examples.C 6) Examples.store = Undefined ∧
  at_ Examples.C 1 1 Examples.store
  = Ret (operator_index Examples.C 4) Examples.store.
Proof.
  split_and!.
  - apply (operator_index_spec Examples.store Examples.C
             [1; 2; 3; 4; 5; 6]%Z 4); [concrete_I2 | reflexivity].
  - apply (operator_index_spec Examples.store Examples.C
             [1; 2; 3; 4; 5; 6]%Z 6); [concrete_I2 | vm_compute; discriminate].
  - apply (operator_index_spec Examples.store Examples.C
             [1; 2; 3; 4; 5; 6]%Z 0 ltac:(concrete_I2));
      [reflexivity | reflexivity | reflexivity | reflexivity].
Defined.

(** X12.  [front()] and [back()] on a matrix that satisfies I2: they refer
    to the first and to the last element of the flattened matrix.  On a
    matrix without elements neither throws: reading [front()] is undefined,
    and [back()] already forms a pointer before the start of the block (or
    from a null pointer), which is undefined. *)
Theorem front_back_spec {T : Type} (h : heap T) (m : matrix) (xs : list T) :
  I2 h m xs →
  (∀ x, head xs = Some x → load (front m) h = Ret x h) ∧
  (∀ x, last xs = Some x → (p ← back m; load p) h = Ret x h) ∧
  (xs = [] → load (front m) h = Undefined ∧ back m h = Undefined).
Proof.
  intros Hm. pose proof Hm as (Hlen & _). split_and!.
  - intros x Hx. rewrite head_lookup in Hx.
    unfold front. by rewrite (load_first h m xs Hm), Hx.
  - intros x Hx. rewrite last_lookup in Hx.
    assert (length xs ≠ 0%nat) as Hnz by (by destruct xs).
    pose proof (load_slot h m xs (m_size m - 1) Hm) as E.
    replace (N.to_nat (m_size m - 1)) with (pred (length xs)) in E by lia.
    rewrite Hx in E. unfold back.
    destruct (m_data m) as [|l o]; simpl in *; [done|].
    erewrite bind_Ret; last first.
    { unfold lift_op. rewrite (proj2 (N.leb_le 1 (o + m_size m))) by lia.
      reflexivity. }
    replace (o + m_size m - 1)%N with (o + (m_size m - 1))%N by lia. exact E.
  - intros ->. simpl in Hlen. split.
    + unfold front. by rewrite (load_first h m [] Hm).
    + unfold back.
      destruct (I2_cases _ _ _ Hm) as (_ & _ & [(-> & _)|(l & -> & _)]);
        [done|].
      rewrite <- Hlen. done.
Qed.

Lemma front_back_witness :
  load (front Examples.C) Examples.store = Ret 1%Z Examples.store ∧
  (p ← back Examples.C; load p) Examples.store = Ret 6%Z Examples.store ∧
  back (T:=Z) (Matrix 0 0 0 0 nullptr) ∅ = Undefined.
Proof.
  split_and!.
  - apply (front_back_spec Examples.store Examples.C [1; 2; 3; 4; 5; 6]%Z);
      [concrete_I2 | reflexivity].
  - apply (front_back_spec Examples.store Examples.C [1; 2; 3; 4; 5; 6]%Z);
      [concrete_I2 | reflexivity].
  - apply (front_back_spec ∅ (Matrix 0 0 0 0 nullptr) []);
      [concrete_I2 | reflexivity].
Defined.

Section Lifetime.
Context {T : Type}.

Implicit Types (h : heap T) (m : matrix) (xs : list T).

(** Destroying a matrix whose block is the one block the store gained gives
    the store back. *)
Lemma destructor_fresh h h' m xs :
  I2 h' m xs →
  (m_data m = nullptr ∧ h' = h ∨
   ∃ l b, m_data m = Ptr l 0 ∧ h !! l = None ∧ h' = <[l := b]> h) →
  destructor m h' = Ret (Matrix 0 0 0 0 (m_data m)) h.
Proof.
  intros Hm Hh. rewrite (destructor_Ret h' m xs Hm).
  destruct Hh as [(-> & ->)|(l & b & -> & Hl & ->)]; [done|].
  by rewrite delete_insert_eq, delete_id.
Qed.

End Lifetime.

(** X13.  Copy construction followed by destruction gives the free store
    back as it was, block for block: for a copy made by the copy constructor
    of a matrix that satisfies I2, the destructor of the copy leaves the
    store of before the copy.  Nothing is leaked and the original keeps its
    block. *)
Theorem copy_then_destroy {T : Type} (h : heap T) (other : matrix)
    (xs : list T) :
  I2 h other xs →
  ∃ m h', matrix_copy other h = Ret m h' ∧
    destructor m h' = Ret (Matrix 0 0 0 0 (m_data m)) h.
Proof.
  intros Ho.
  destruct (copy_into_fresh h other xs (m_rows other) (m_columns other) Ho)
    as (data & h' & E & Hm & _).
  destruct (copy_into_block h other xs (m_rows other) (m_columns other) Ho)
    as (data' & h'' & E' & Hp).
  rewrite E in E'. injection E' as <- <-.
  eexists _, h'. split; [exact E|].
  eapply destructor_fresh; [exact Hm|].
  destruct Hp as [(_ & -> & ->)|(l & -> & Hl & ->)]; [by left|right; eauto].
Qed.

Lemma copy_then_destroy_witness :
  ∃ m h', matrix_copy Examples.A Examples.store = Ret m h' ∧
    destructor m h' = Ret (Matrix 0 0 0 0 (m_data m)) Examples.store.
Proof.
  apply (copy_then_destroy Examples.store Examples.A [1; 2; 3; 4]%Z).
  concrete_I2.
Defined.



(** X15.  [flatten()] and [at] agree.  For a matrix that satisfies I1 and I2
    and whose [rows * columns] is representable, [flatten()] returns a
    sequence of [size()] elements without changing the store, and the
    element [at(row, column)] refers to, for every index pair in range, is
    the one at position [row * columns + column] of that sequence. *)
Theorem flatten_row_major {T : Type} (h : heap T) (m : matrix) (xs : list T) :
  I1 m → I2 h m xs →
  (row_size m * column_size m < size_modulus)%N →
  ∃ v, flatten m h = Ret v h ∧
    N.of_nat (length v) = size m ∧
    ∀ row column, (row < row_size m)%N → (column < column_size m)%N →
      ∃ x, v !! N.to_nat (row * column_size m + column) = Some x ∧
           (p ← at_ m row column; load p) h = Ret x h.
Proof.
  intros Im Hm Hfit. exists xs. split_and!.
  - by apply flatten_spec.
  - by destruct Hm.
  - intros row column Hr Hc.
    destruct (flat_offset h m xs row column Im Hm Hfit Hr Hc) as [_ Hlt].
    destruct (lookup_lt_is_Some_2 _ _ Hlt) as [x Hx].
    exists x. split; [done|]. by eapply at_reads.
Qed.

Lemma flatten_row_major_witness :
  ∃ v, flatten Examples.C Examples.store = Ret v Examples.store ∧
    ∃ x, v !! 5%nat = Some x ∧
         (p ← at_ Examples.C 1 2; load p) Examples.store
         = Ret x Examples.store.
Proof.
  destruct (flatten_row_major Examples.store Examples.C [1; 2; 3; 4; 5; 6]%Z)
    as (v & E & _ & Hat); [reflexivity | concrete_I2 | reflexivity |].
  exists v. split; [exact E|].
  apply (Hat 1%N 2%N); reflexivity.
Defined.

Section NestedLists.
Context {T : Type}.

Implicit Types (h : heap T) (m : matrix) (row bad : list T)
  (pre post rows : list (list T)).

(** The loop of the nested-list constructor on rows of [c] elements followed
    by a row of another length: the rows before it are written, two slots
    apart, and the loop throws. *)
Lemma init_list_rows_ragged pre bad post (c : nat) : ∀ (off : N) blk l h,
  Forall (λ row, length row = c) pre → length bad ≠ c →
  h !! l = Some blk →
  (pre = [] ∨ N.to_nat off + 2 * (length pre - 1) + c ≤ length blk) →
  ∃ blk', length blk' = length blk ∧
    init_list_rows (pre ++ bad :: post) (N.of_nat c) (Ptr l 0) off h
    = Throw (invalid_argument "Columns must be all the same size")
            (<[l := blk']> h).
Proof.
  induction pre as [|row pre IH]; intros off blk l h Hpre Hbad Hl Hlen.
  - exists blk. split; [done|]. simpl.
    destruct (N.eqb_spec (N.of_nat (length bad)) (N.of_nat c)) as [Hb|_];
      [by apply Nat2N.inj in Hb|].
    simpl. unfold throw. by rewrite insert_id.
  - apply Forall_cons in Hpre as [Hrow Hpre].
    destruct Hlen as [|Hlen]; [done|].
    change (length (row :: pre) - 1) with (length pre - 0) in Hlen.
    cbn [app init_list_rows]. rewrite Hrow, N.eqb_refl. cbn [negb].
    rewrite Nat2N.id.
    set (blk1 := list_inserts (N.to_nat off) (Val <$> row) blk).
    assert (length blk1 = length blk) as Hlen1 by apply length_inserts.
    destruct (IH (off + 2)%N blk1 l (<[l := blk1]> h) Hpre Hbad) as (blk' & Hlen' & E).
    { apply lookup_insert_eq. }
    { destruct pre; [by left|right]. simpl in *. lia. }
    exists blk'. split; [congruence|].
    erewrite bind_Ret; last first.
    { rewrite move_list_write by lia.
      rewrite take_ge by lia.
      apply (write_slots_spec _ l (0 + off) blk); [done|].
      rewrite length_fmap. lia. }
    rewrite N.add_0_l. fold blk1. rewrite E. by rewrite insert_insert_eq.
Qed.

End NestedLists.

(** X16.  The nested-list constructor on a list of rows of two elements
    each ([2 * rows] representable): it returns a matrix with as many rows as
    the list, two columns, both invariants, in a fresh block, and [flatten()]
    of it is the concatenation of the rows.  The nested-list assignment of
    the same list gives the same object in the same store, in which a block
    the assigned-to matrix owned before is still allocated with its
    elements: the assignment does not release it. *)
Theorem init_list_two_columns {T : Type} (h : heap T) (rows : list (list T)) :
  rows ≠ [] → Forall (λ row, length row = 2) rows →
  (2 * N.of_nat (length rows) < size_modulus)%N →
  ∃ m h', matrix_init_list rows h = Ret m h' ∧
    row_size m = N.of_nat (length rows) ∧ column_size m = 2%N ∧
    I1 m ∧ I2 h' m (concat rows) ∧ fresh_in h m ∧
    flatten m h' = Ret (concat rows) h' ∧
    ∀ this xs, I2 h this xs →
      assign_init_list this rows h = Ret m h' ∧ I2 h' this xs.
Proof.
  intros Hne Hrows Hfit.
  destruct (matrix_init_list_two rows h Hne Hrows Hfit)
    as (m & h' & E & Hr & Hc & I & Hm & Hf & Hsub).
  exists m, h'. split_and!; try done.
  - by apply flatten_spec.
  - intros this xs Ht. split; [exact E|]. by eapply I2_mono.
Qed.

Lemma init_list_two_columns_witness :
  ∃ m h', matrix_init_list [[1; 2]; [3; 4]; [5; 6]]%Z Examples.store = Ret m h' ∧
    flatten m h' = Ret [1; 2; 3; 4; 5; 6]%Z h' ∧
    assign_init_list Examples.A [[1; 2]; [3; 4]; [5; 6]]%Z Examples.store
    = Ret m h' ∧
    I2 h' Examples.A [1; 2; 3; 4]%Z.
Proof.
  destruct (init_list_two_columns Examples.store [[1; 2]; [3; 4]; [5; 6]]%Z)
    as (m & h' & E & _ & _ & _ & _ & _ & Hfl & Hassign);
    [discriminate | by repeat constructor | reflexivity |].
  destruct (Hassign Examples.A [1; 2; 3; 4]%Z) as [Ea Ht]; [concrete_I2|].
  exists m, h'. split_and!; [exact E | exact Hfl | exact Ea | exact Ht].
Defined.

(** X17.  The nested-list constructor on a ragged list.  When the first
    rows have [c >= 2] elements each and a later row has another length
    ([c * rows] representable), the constructor throws [invalid_argument]
    with the message "Columns must be all the same size", and so does the
    nested-list assignment.  The block of [c * rows] slots allocated before
    the loop is in the store when the exception leaves: it is not released. *)
Theorem init_list_ragged_throws {T : Type} (h : heap T)
    (pre post : list (list T)) (bad : list T) (c : nat) (this : matrix) :
  pre ≠ [] → 2 ≤ c →
  Forall (λ row, length row = c) pre → length bad ≠ c →
  (N.of_nat c * N.of_nat (length (pre ++ bad :: post)) < size_modulus)%N →
  ∃ l blk, h !! l = None ∧
    length blk = (c * length (pre ++ bad :: post))%nat ∧
    matrix_init_list (pre ++ bad :: post) h
    = Throw (invalid_argument "Columns must be all the same size")
            (<[l := blk]> h) ∧
    assign_init_list this (pre ++ bad :: post) h
    = Throw (invalid_argument "Columns must be all the same size")
            (<[l := blk]> h).
Proof.
  intros Hne Hc Hpre Hbad Hfit.
  destruct pre as [|first pre']; [done|]. clear Hne.
  pose proof (Forall_inv Hpre) as Hfirst. simpl in Hfirst.
  set (pre := first :: pre') in *.
  set (n := length (pre ++ bad :: post)) in *.
  assert (length pre ≤ n)%nat as Hn.
  { unfold n. rewrite length_app. lia. }
  assert (0 < length pre)%nat as Hpos by (unfold pre; simpl; lia).
  assert (dims_size (N.of_nat n) (N.of_nat c) = N.of_nat (c * n)) as Hsz.
  { rewrite dims_size_product; lia. }
  destruct (_M_allocate_pos (N.of_nat (c * n)) h) as (l & Hl & Ea); [nia|].
  rewrite Nat2N.id in Ea.
  destruct (init_list_rows_ragged pre bad post c 0 (replicate (c * n) Raw) l
              (<[l := replicate (c * n) Raw]> h) Hpre Hbad) as (blk & Hlen & E).
  { apply lookup_insert_eq. }
  { right. rewrite length_replicate. nia. }
  rewrite length_replicate in Hlen. rewrite insert_insert_eq in E.
  assert (matrix_init_list (pre ++ bad :: post) h
          = Throw (invalid_argument "Columns must be all the same size")
                  (<[l := blk]> h)) as Hthrow.
  { unfold matrix_init_list. change (pre ++ bad :: post)
      with (first :: (pre' ++ bad :: post)) at 1.
    cbv beta iota zeta. fold n. change (first :: pre' ++ bad :: post)
      with (pre ++ bad :: post).
    fold n. rewrite Hfirst, Hsz.
    erewrite bind_Ret by exact Ea.
    by erewrite bind_Throw by exact E. }
  exists l, blk. split_and!; [done|done|exact Hthrow|exact Hthrow].
Qed.

Lemma init_list_ragged_throws_witness :
  ∃ l blk, length blk = 9%nat ∧
    matrix_init_list [[1; 2; 3]; [4; 5]; [6; 7; 8]]%Z Examples.store
    = Throw (invalid_argument "Columns must be all the same size")
            (<[l := blk]> Examples.store).
Proof.
  destruct (init_list_ragged_throws Examples.store [[1; 2; 3]]%Z
              [[6; 7; 8]]%Z [4; 5]%Z 3 Examples.A)
    as (l & blk & _ & Hlen & E & _);
    [discriminate | lia | by repeat constructor | simpl; lia
    | vm_compute; reflexivity |].
  exists l, blk. split; [exact Hlen | exact E].
Defined.

Section OrderLaws.
Context {T : Type} `{!LessThanComparable T}.

Implicit Types (xs ys zs : list T).

Lemma lex_lt_irrefl xs :
  Forall (λ x, lt_op x x = false) xs → ¬ lex_lt xs xs.
Proof.
  induction 1 as [|x xs Hx _ IH]; inversion 1; simplify_eq; [congruence|auto].
Qed.

Lemma lex_lt_asym xs ys :
  (∀ x y, lt_op x y = true → lt_op y x = false) →
  lex_lt xs ys → ¬ lex_lt ys xs.
Proof.
  intros Hasym. induction 1 as [y ys|x y xs ys Hxy|x y xs ys Hxy Hyx _ IH];
    inversion 1; simplify_eq.
  - apply Hasym in Hxy. congruence.
  - congruence.
  - congruence.
  - auto.
Qed.

Lemma lex_lt_trans xs ys zs :
  (∀ x y z, lt_op x y = true → lt_op y z = true → lt_op x z = true) →
  (∀ x y z, lt_op x y = false → lt_op y x = false →
            lt_op y z = false → lt_op z y = false →
            lt_op x z = false ∧ lt_op z x = false) →
  lex_lt xs ys → lex_lt ys zs → lex_lt xs zs.
Proof.
  intros Htrans Hincomp Hxy. revert zs.
  induction Hxy as [y ys|x y xs ys Hlt|x y xs ys Hxy Hyx _ IH];
    intros zs; inversion 1 as [|y' z ys' zs' Hyz|y' z ys' zs' Hyz Hzy Hrest];
    simplify_eq.
  - constructor.
  - constructor.
  - apply lex_lt_head. eauto.
  - apply lex_lt_head.
    destruct (lt_op x z) eqn:Hxz; [done|].
    destruct (lt_op z x) eqn:Hzx.
    + pose proof (Htrans _ _ _ Hzx Hlt). congruence.
    + destruct (Hincomp x z y Hxz Hzx Hzy Hyz). congruence.
  - apply lex_lt_head.
    destruct (lt_op x z) eqn:Hxz; [done|].
    destruct (lt_op z x) eqn:Hzx.
    + pose proof (Htrans _ _ _ Hyz Hzx). congruence.
    + destruct (Hincomp y x z Hyx Hxy Hxz Hzx). congruence.
  - destruct (Hincomp x y z Hxy Hyx Hyz Hzy). apply lex_lt_tail; auto.
Qed.

(** Two sequences neither of which is smaller than the other: they have
    the same length and their elements are pairwise incomparable. *)
Lemma lex_lt_incomparable xs : ∀ ys,
  (¬ lex_lt xs ys ∧ ¬ lex_lt ys xs) ↔
  Forall2 (λ x y, lt_op x y = false ∧ lt_op y x = false) xs ys.
Proof.
  induction xs as [|x xs IH]; intros [|y ys].
  - split; [constructor|]. intros _. split; inversion 1.
  - split; [|inversion 1]. intros [H _]. destruct H. constructor.
  - split; [|inversion 1]. intros [_ H]. destruct H. constructor.
  - destruct (lt_op x y) eqn:Hxy.
    { split; [|intros Hall; apply Forall2_cons in Hall as [[? _] _]; congruence].
      intros [H _]. destruct H. by apply lex_lt_head. }
    destruct (lt_op y x) eqn:Hyx.
    { split; [|intros Hall; apply Forall2_cons in Hall as [[_ ?] _]; congruence].
      intros [_ H]. destruct H. by apply lex_lt_head. }
    rewrite Forall2_cons, <- IH. split.
    + intros [H1 H2]. split; [done|].
      split; intros H; [apply H1|apply H2]; by apply lex_lt_tail.
    + intros (_ & H1 & H2).
      split; inversion 1; simplify_eq; first [congruence | auto].
Qed.

End OrderLaws.

(** X18.  The order does not look at the dimensions, equality does.  Two
    matrices that satisfy I1 and I2 and hold the same sequence of elements
    under different dimensions (a 2x3 and a 3x2 matrix, say), no element
    being smaller than itself: neither is [<] or [>] the other, so both
    [<=] and [>=] hold between them, and yet [==] is false and [!=] true. *)
Theorem order_ignores_dimensions {T : Type}
    `{!EqualityComparable T, !LessThanComparable T}
    (h : heap T) (lhs rhs : matrix) (xs : list T) :
  I2 h lhs xs → I2 h rhs xs →
  dimensions lhs ≠ dimensions rhs →
  Forall (λ x, lt_op x x = false) xs →
  operator_lt lhs rhs h = Ret false h ∧
  operator_gt lhs rhs h = Ret false h ∧
  operator_le lhs rhs h = Ret true h ∧
  operator_ge lhs rhs h = Ret true h ∧
  operator_eq lhs rhs h = Ret false h ∧
  operator_ne lhs rhs h = Ret true h.
Proof.
  intros Hl Hr Hd Hirr.
  assert (∀ a b, I2 h a xs → I2 h b xs → operator_lt a b h = Ret false h) as Hlt.
  { intros a b Ha Hb.
    destruct (operator_lt_spec h a b xs xs Ha Hb) as ([] & E & Hiff); [|done].
    destruct (lex_lt_irrefl xs Hirr). by apply Hiff. }
  assert (operator_eq lhs rhs h = Ret false h) as Heq.
  { unfold operator_eq. by rewrite decide_True. }
  split_and!.
  - by apply Hlt.
  - unfold operator_gt. by apply Hlt.
  - unfold operator_le. erewrite bind_Ret by by apply Hlt. done.
  - unfold operator_ge. erewrite bind_Ret by by apply Hlt. done.
  - done.
  - unfold operator_ne. erewrite bind_Ret by done. done.
Qed.

Lemma order_ignores_dimensions_witness :
  operator_le Examples.C Examples.D Examples.store = Ret true Examples.store ∧
  operator_ge Examples.C Examples.D Examples.store = Ret true Examples.store ∧
  operator_eq Examples.C Examples.D Examples.store = Ret false Examples.store.
Proof.
  destruct (order_ignores_dimensions Examples.store Examples.C Examples.D
              [1; 2; 3; 4; 5; 6]%Z)
    as (_ & _ & Hle & Hge & Heq & _);
    [concrete_I2 | concrete_I2 | vm_compute; discriminate
    | by repeat constructor |].
  split_and!; [exact Hle | exact Hge | exact Heq].
Defined.

(** X19.  [operator<] is a strict weak order on matrices that satisfy I2
    whenever the element order is one (asymmetric, transitive, with
    transitive incomparability): no matrix is smaller than itself, [a < b]
    excludes [b < a], [a < b] with [b < c] gives [a < c], and when neither
    of [a], [b] is smaller than the other and neither of [b], [c] is, then
    neither of [a], [c] is smaller than the other. *)
Theorem operator_lt_strict_order {T : Type} `{!LessThanComparable T}
    (h : heap T) (a b c : matrix) (xs ys zs : list T) :
  (∀ x y, lt_op x y = true → lt_op y x = false) →
  (∀ x y z, lt_op x y = true → lt_op y z = true → lt_op x z = true) →
  (∀ x y z, lt_op x y = false → lt_op y x = false →
            lt_op y z = false → lt_op z y = false →
            lt_op x z = false ∧ lt_op z x = false) →
  I2 h a xs → I2 h b ys → I2 h c zs →
  operator_lt a a h = Ret false h ∧
  (operator_lt a b h = Ret true h → operator_lt b a h = Ret false h) ∧
  (operator_lt a b h = Ret true h → operator_lt b c h = Ret true h →
   operator_lt a c h = Ret true h) ∧
  (operator_lt a b h = Ret false h → operator_lt b a h = Ret false h →
   operator_lt b c h = Ret false h → operator_lt c b h = Ret false h →
   operator_lt a c h = Ret false h ∧ operator_lt c a h = Ret false h).
Proof.
  intros Hasym Htrans Hincomp Ha Hb Hc.
  destruct (operator_lt_spec h a a xs xs Ha Ha) as (raa & Eaa & Haa).
  destruct (operator_lt_spec h a b xs ys Ha Hb) as (rab & Eab & Hab).
  destruct (operator_lt_spec h b a ys xs Hb Ha) as (rba & Eba & Hba).
  destruct (operator_lt_spec h b c ys zs Hb Hc) as (rbc & Ebc & Hbc).
  destruct (operator_lt_spec h c b zs ys Hc Hb) as (rcb & Ecb & Hcb).
  destruct (operator_lt_spec h a c xs zs Ha Hc) as (rac & Eac & Hac).
  destruct (operator_lt_spec h c a zs xs Hc Ha) as (rca & Eca & Hca).
  rewrite Eaa, Eab, Eba, Ebc, Ecb, Eac, Eca.
  split; [|split; [|split]].
  - destruct raa; [|done].
    destruct (lex_lt_asym xs xs Hasym); by apply Haa.
  - intros [= ->]. destruct rba; [|done].
    destruct (lex_lt_asym xs ys Hasym); [by apply Hab|by apply Hba].
  - intros [= ->] [= ->]. f_equal. apply Hac.
    eapply lex_lt_trans; [done|done|by apply Hab|by apply Hbc].
  - intros [= ->] [= ->] [= ->] [= ->].
    assert (¬ lex_lt xs zs ∧ ¬ lex_lt zs xs) as [Hxz Hzx].
    { apply lex_lt_incomparable.
      eapply Forall2_trans; [|apply lex_lt_incomparable|apply lex_lt_incomparable].
      - intros x y z [H1 H2] [H3 H4]. by apply (Hincomp x y z).
      - split; [by rewrite <- Hab|by rewrite <- Hba].
      - split; [by rewrite <- Hbc|by rewrite <- Hcb]. }
    split; f_equal.
    + destruct rac; [|done]. destruct Hxz. by apply Hac.
    + destruct rca; [|done]. destruct Hzx. by apply Hca.
Qed.

Lemma operator_lt_strict_order_witness :
  operator_lt Examples.A Examples.A Examples.store = Ret false Examples.store ∧
  (operator_lt Examples.A Examples.G Examples.store = Ret true Examples.store →
   operator_lt Examples.G Examples.A Examples.store = Ret false Examples.store).
Proof.
  destruct (operator_lt_strict_order Examples.store
              Examples.A Examples.G Examples.B
              [1; 2; 3; 4]%Z [1; 2; 3; 5]%Z [5; 6; 7; 8]%Z)
    as (Hirr & Hasym & _).
  - intros x y. unfold lt_op, int_lt. lia.
  - intros x y z. unfold lt_op, int_lt. lia.
  - intros x y z. unfold lt_op, int_lt. lia.
  - concrete_I2.
  - concrete_I2.
  - concrete_I2.
  - split; [exact Hirr | exact Hasym].
Defined.

(** X20.  [operator==] is an equivalence on matrices that satisfy I1 and I2
    whenever the equality of the elements is one: every matrix is equal to
    itself, [a == b] gives [b == a], and [a == b] with [b == c] gives
    [a == c]. *)
Theorem operator_eq_equivalence {T : Type} `{!EqualityComparable T}
    (h : heap T) (a b c : matrix) (xs ys zs : list T) :
  (∀ x, eq_op x x = true) →
  (∀ x y, eq_op x y = true → eq_op y x = true) →
  (∀ x y z, eq_op x y = true → eq_op y z = true → eq_op x z = true) →
  I1 a → I1 b → I1 c → I2 h a xs → I2 h b ys → I2 h c zs →
  operator_eq a a h = Ret true h ∧
  (operator_eq a b h = Ret true h → operator_eq b a h = Ret true h) ∧
  (operator_eq a b h = Ret true h → operator_eq b c h = Ret true h →
   operator_eq a c h = Ret true h).
Proof.
  intros Hrefl Hsym Htrans Ia Ib Ic Ha Hb Hc.
  assert (∀ m n us vs, I1 m → I1 n → I2 h m us → I2 h n vs →
            operator_eq m n h = Ret true h ↔
            dimensions m = dimensions n ∧
            Forall2 (λ x y, eq_op x y = true) us vs) as Hchar.
  { intros m n us vs Im In Hm Hn.
    destruct (operator_eq_spec h m n us vs Im In Hm Hn) as (r & E & Hdiff & Hsame).
    rewrite E. destruct (decide (dimensions m = dimensions n)) as [Hd|Hd].
    - rewrite <- (Hsame Hd). split; [by intros [= ->]|by intros [_ ->]].
    - rewrite (Hdiff Hd). split; [done|by intros [? _]]. }
  rewrite (Hchar a a xs xs), (Hchar a b xs ys), (Hchar b a ys xs),
    (Hchar b c ys zs), (Hchar a c xs zs) by done.
  split; [|split].
  - split; [done|]. apply Forall_Forall2_diag, Forall_forall. auto.
  - intros [Hd Hall]. split; [done|].
    apply Forall2_flip. eapply Forall2_impl; [exact Hall|]. auto.
  - intros [Hd1 H1] [Hd2 H2]. split; [congruence|].
    eapply Forall2_trans; [|exact H1|exact H2]. eauto.
Qed.

Lemma operator_eq_equivalence_witness :
  operator_eq Examples.A Examples.A Examples.store = Ret true Examples.store.
Proof.
  destruct (operator_eq_equivalence Examples.store
              Examples.A Examples.G Examples.B
              [1; 2; 3; 4]%Z [1; 2; 3; 5]%Z [5; 6; 7; 8]%Z)
    as (Hrefl & _).
  - intros x. unfold eq_op, int_eq. lia.
  - intros x y. unfold eq_op, int_eq. lia.
  - intros x y z. unfold eq_op, int_eq. lia.
  - reflexivity.
  - reflexivity.
  - reflexivity.
  - concrete_I2.
  - concrete_I2.
  - concrete_I2.
  - exact Hrefl.
Defined.

Section ScalarComparisons.
Context {E : Type}.

Implicit Types (h : heap (E + bool)) (mtx r : matrix) (xs : list E).

(** The body the six operators share, for any comparison [cmp]. *)
Lemma compare_with_spec (cmp : E → E → bool) (elem : E) h mtx xs :
  I1 mtx → I2 h mtx (inl <$> xs) →
  compared_with cmp elem h mtx xs
    ((result ← matrix_size_value (row_size mtx) (column_size mtx) (inr false);
      transform1 (begin mtx) (N.to_nat (m_size mtx)) (begin result)
                 (compare_with cmp elem) ;;
      mret result) h).
Proof.
  intros Ia Ha. unfold compared_with.
  set (zs := inr <$> ((λ x, cmp x elem) <$> xs) : list (E + bool)).
  assert (Forall2 (λ x z, compare_with cmp elem x = Some z) (inl <$> xs) zs)
    as Hzs.
  { unfold zs. clear. induction xs; simpl; by constructor. }
  pose proof (Forall2_length _ _ _ Hzs) as Hlz.
  pose proof (matrix_size_value_spec (row_size mtx) (column_size mtx)
                (inr false : E + bool) h) as Hcon.
  pose proof Hcon as (r & h1 & E1 & Hr & Hcol & Hs & Hcap & _ & _ & Hsub).
  rewrite E1 in Hcon.
  assert (size r = m_size mtx) as Hsr by (by rewrite Hs, Ia).
  assert (N.of_nat (length zs) = size r) as Hlen.
  { destruct Ha as (Hla & _). lia. }
  assert (dimensions r = dimensions mtx) as Hdim.
  { unfold dimensions, row_size, column_size in *. by rewrite Hr, Hcol. }
  erewrite bind_Ret by done.
  destruct (decide (m_size mtx = 0%N)) as [Hz|Hnz].
  - rewrite Hz. simpl. exists r, h1.
    destruct (constructed_result _ _ _ _ _ _ zs Hcon Hlen h1)
      as (? & ? & ? & ?); [left; split; [lia|done]|].
    split_and!; eauto using I2_mono.
  - destruct (I2_block h mtx _ Ha Hnz) as (la & ba & Hda & Hla & _ & Hxa & _).
    destruct (constructed_block _ _ _ _ _ _ Hcon) as (lr & Hdr & Hfr & Hlr);
      [lia|].
    set (h' := <[lr := Val <$> zs]> h1).
    destruct (constructed_result _ _ _ _ _ _ zs Hcon Hlen h')
      as (? & ? & ? & ?); [right; eauto|].
    exists r, h'. split_and!; eauto using I2_mono.
    unfold begin. rewrite Hda, Hdr.
    replace (N.to_nat (m_size mtx)) with (length (inl <$> xs : list (E + bool)))
      by (destruct Ha as (? & _); lia).
    erewrite bind_Ret; [done|].
    erewrite (transform1_spec _ _ zs Hzs la 0 ba lr 0);
      eauto using lookup_weaken.
    + do 2 f_equal. unfold h'. f_equal.
      rewrite <-(app_nil_r (replicate _ _)), list_inserts_0_r, app_nil_r;
        [done|].
      rewrite length_fmap, length_replicate. lia.
    + intros ->. congruence.
    + replace (length (inl <$> xs)) with (N.to_nat (size r)) by lia.
      by apply assignable_replicate.
Qed.

End ScalarComparisons.

(** X21.  The six comparisons of a matrix with a scalar.  For a matrix
    that satisfies I1 and I2, with elements [xs], each of [mtx == elem],
    [mtx != elem], [mtx < elem], [mtx > elem], [mtx <= elem] and
    [mtx >= elem] returns, without an exception and also for a matrix
    without elements, a [matrix<bool>] of the dimensions of [mtx] that
    satisfies I1 and I2, in a fresh block, whose element [i] is the
    comparison of element [i] of [mtx] with the scalar, the scalar on the
    right.  [mtx] and every other block are unchanged. *)
Theorem scalar_comparisons_spec {E : Type}
    `{!EqualityComparable E, !NotEqualComparable E, !LessThanComparable E,
      !GreaterThanComparable E, !LessEqualComparable E,
      !GreaterEqualComparable E}
    (h : heap (E + bool)) (mtx : matrix) (elem : E) (xs : list E) :
  I1 mtx → I2 h mtx (inl <$> xs) →
  compared_with eq_op elem h mtx xs (operator_eq_scalar mtx elem h) ∧
  compared_with ne_op elem h mtx xs (operator_ne_scalar mtx elem h) ∧
  compared_with lt_op elem h mtx xs (operator_lt_scalar mtx elem h) ∧
  compared_with gt_op elem h mtx xs (operator_gt_scalar mtx elem h) ∧
  compared_with le_op elem h mtx xs (operator_le_scalar mtx elem h) ∧
  compared_with ge_op elem h mtx xs (operator_ge_scalar mtx elem h).
Proof.
  intros Im Hm. split_and!; by apply compare_with_spec.
Qed.

Lemma scalar_comparisons_witness :
  ∃ r h',
    operator_lt_scalar (Matrix 2 2 4 4 (Ptr 1%positive 0)) 3%Z
      {[ 1%positive := Val <$> (inl <$> [1; 2; 3; 4]%Z) ]}
    = Ret r h' ∧
    dimensions r = (2, 2)%N ∧
    I2 h' r (inr <$> [true; true; false; false]).
Proof.
  destruct (scalar_comparisons_spec
              ({[ 1%positive := Val <$> (inl <$> [1; 2; 3; 4]%Z) ]})
              (Matrix 2 2 4 4 (Ptr 1%positive 0)) 3%Z [1; 2; 3; 4]%Z)
    as (_ & _ & (r & h' & E1 & Hd & _ & Hr & _) & _);
    [reflexivity | concrete_I2 |].
  exists r, h'. split_and!; [exact E1 | exact Hd | exact Hr].
Defined.

Section IntRoundTrips.

Implicit Types (h : heap Z) (a b : matrix) (xs ys : list Z).

Lemma int_plus_minus xs ys :
  Forall2 (λ x y, in_range x = true ∧ in_range (x + y) = true) xs ys →
  Forall3 (λ x y z, std_plus x y = Some z) xs ys (zip_with Z.add xs ys) ∧
  Forall3 (λ z y x, std_minus z y = Some x) (zip_with Z.add xs ys) ys xs.
Proof.
  induction 1 as [|x y xs ys [Hx Hxy] _ [IH1 IH2]]; simpl;
    [split; constructor|].
  split; (constructor; [|done]).
  - unfold std_plus, int_plus, checked. by rewrite Hxy.
  - unfold std_minus, int_minus, checked.
    replace (x + y - y)%Z with x by lia. by rewrite Hx.
Qed.

Lemma int_multiplies_divides (s : Z) xs :
  s ≠ 0%Z →
  Forall (λ x, in_range x = true ∧ in_range (x * s) = true) xs →
  Forall2 (λ x z, std_multiplies x s = Some z) xs ((λ x, x * s)%Z <$> xs) ∧
  Forall2 (λ z x, std_divides z s = Some x) ((λ x, x * s)%Z <$> xs) xs.
Proof.
  intros Hs. induction 1 as [|x xs [Hx Hxs] _ [IH1 IH2]]; simpl;
    [split; constructor|].
  split; (constructor; [|done]).
  - unfold std_multiplies, int_multiplies, checked. by rewrite Hxs.
  - unfold std_divides, int_divides, checked.
    destruct (Z.eqb_spec s 0) as [|_]; [done|].
    rewrite Z.quot_mul by done. by rewrite Hx.
Qed.

End IntRoundTrips.

(** X22.  On [matrix<int>], adding a matrix and subtracting it again gives
    the elements back.  For [a] and [b] that satisfy I1 and I2 and have the
    same dimensions, the elements of [a] and every sum being representable
    in [int], [a.add(b)] returns a matrix [s] and [s.sub(b)] a matrix of the
    dimensions of [a] whose elements are those of [a]; [a] and [b] are
    unchanged, and each result has a block of its own. *)
Theorem add_then_sub_gives_back (h : heap Z) (a b : matrix) (xs ys : list Z) :
  I1 a → I1 b → I2 h a xs → I2 h b ys →
  dimensions a = dimensions b →
  Forall2 (λ x y, in_range x = true ∧ in_range (x + y) = true) xs ys →
  ∃ s h1 d h2,
    add a b h = Ret s h1 ∧ I2 h1 s (zip_with Z.add xs ys) ∧
    sub s b h1 = Ret d h2 ∧
    dimensions d = dimensions a ∧ I1 d ∧ I2 h2 d xs ∧
    I2 h2 a xs ∧ I2 h2 b ys ∧ fresh_in h1 d ∧ h ⊆ h2.
Proof.
  intros Ia Ib Ha Hb Hdim Hfit.
  destruct (int_plus_minus xs ys Hfit) as [Hadd Hsub].
  destruct (elementwise_spec "In matrix::add - dimensions do not match"
              std_plus h a b xs ys Ia Ib Ha Hb) as [_ Hok].
  destruct (Hok Hdim _ Hadd)
    as (s & h1 & E1 & Hds & Is & Hs & _ & Hsub1 & Ha1 & Hb1).
  destruct (elementwise_spec "In matrix::sub - dimensions do not match"
              std_minus h1 s b _ ys Is Ib Hs Hb1) as [_ Hok2].
  destruct (Hok2 ltac:(congruence) _ Hsub)
    as (d & h2 & E2 & Hdd & Id & Hd & Hfd & Hsub2 & _ & Hb2).
  exists s, h1, d, h2.
  split_and!; try done; [congruence|by eapply I2_mono|by etrans].
Qed.

Lemma add_then_sub_gives_back_witness :
  ∃ s h1 d h2,
    add Examples.A Examples.B Examples.store = Ret s h1 ∧
    I2 h1 s [6; 8; 10; 12]%Z ∧
    sub s Examples.B h1 = Ret d h2 ∧ I2 h2 d [1; 2; 3; 4]%Z.
Proof.
  destruct (add_then_sub_gives_back Examples.store Examples.A Examples.B
              [1; 2; 3; 4]%Z [5; 6; 7; 8]%Z)
    as (s & h1 & d & h2 & E1 & Hs & E2 & _ & _ & Hd & _);
    [reflexivity | reflexivity | concrete_I2 | concrete_I2 | reflexivity
    | by repeat constructor |].
  exists s, h1, d, h2. split_and!; [exact E1 | exact Hs | exact E2 | exact Hd].
Defined.

(** X23.  On [matrix<int>], multiplying by a nonzero scalar and dividing by
    it again gives the elements back.  For a matrix [a] with elements that
    satisfies I1 and I2, the elements and every product being representable
    in [int], [a.mul(s)] returns a matrix [p] and [p.div(s)] a matrix of the
    dimensions of [a] whose elements are those of [a]; [a] is unchanged. *)
Theorem mul_then_div_gives_back (h : heap Z) (a : matrix) (xs : list Z)
    (scalar : Z) :
  I1 a → I2 h a xs → empty a = false → scalar ≠ 0%Z →
  Forall (λ x, in_range x = true ∧ in_range (x * scalar) = true) xs →
  ∃ p h1 q h2,
    mul_scalar a scalar h = Ret p h1 ∧
    I2 h1 p ((λ x, x * scalar)%Z <$> xs) ∧
    div_scalar p scalar h1 = Ret q h2 ∧
    dimensions q = dimensions a ∧ I1 q ∧ I2 h2 q xs ∧
    I2 h2 a xs ∧ fresh_in h1 q ∧ h ⊆ h2.
Proof.
  intros Ia Ha Hne Hs Hfit.
  destruct (int_multiplies_divides scalar xs Hs Hfit) as [Hmul Hdiv].
  destruct (scalarwise_spec (λ elem, std_multiplies elem scalar) h a xs _
              Ia Ha Hmul)
    as (p & h1 & E1 & Hdp & Ip & Hp & _ & Hsub1 & Ha1).
  destruct (scalarwise_spec (λ elem, std_divides elem scalar) h1 p _ xs
              Ip Hp Hdiv)
    as (q & h2 & E2 & Hdq & Iq & Hq & Hfq & Hsub2 & _).
  assert (empty p = false) as Hnp.
  { unfold empty in *. destruct Ha as (Hl & _), Hp as (Hl' & _).
    rewrite length_fmap in Hl'. by rewrite <- Hl', Hl. }
  exists p, h1, q, h2. split_and!; try done.
  - unfold mul_scalar. by rewrite Hne.
  - unfold div_scalar. rewrite Hnp.
    unfold eq_zero, int_zero. by destruct (Z.eqb_spec scalar 0).
  - congruence.
  - by eapply I2_mono.
  - by etrans.
Qed.

Lemma mul_then_div_gives_back_witness :
  ∃ p h1 q h2,
    mul_scalar Examples.A (-3)%Z Examples.store = Ret p h1 ∧
    I2 h1 p [-3; -6; -9; -12]%Z ∧
    div_scalar p (-3)%Z h1 = Ret q h2 ∧ I2 h2 q [1; 2; 3; 4]%Z.
Proof.
  destruct (mul_then_div_gives_back Examples.store Examples.A
              [1; 2; 3; 4]%Z (-3)%Z)
    as (p & h1 & q & h2 & E1 & Hp & E2 & _ & _ & Hq & _);
    [reflexivity | concrete_I2 | reflexivity | discriminate
    | by repeat constructor |].
  exists p, h1, q, h2. split_and!; [exact E1 | exact Hp | exact E2 | exact Hq].
Defined.

Section Cleared.
Context {T : Type}.

Implicit Types (h : heap T) (m : matrix) (xs : list T).

(** [clear()] on a matrix that satisfies both invariants: the object it
    leaves and the store. *)
Lemma clear_Ret h m xs :
  I1 m → I2 h m xs →
  ∃ h', clear m h = Ret (Matrix 0 0 0 (m_capacity m) (m_data m)) h' ∧
    I2 h' (Matrix 0 0 0 (m_capacity m) (m_data m)) [] ∧
    (h' = h ∨
     ∃ l, m_data m = Ptr l 0 ∧
       h' = <[l := replicate (N.to_nat (m_capacity m)) Raw]> h).
Proof.
  intros Im Hm. unfold clear.
  destruct (N.eqb_spec (m_size m) 0) as [Hz|Hnz]; simpl.
  - exists h. unfold I1 in Im. rewrite Hz in Im. symmetry in Im.
    apply dims_size_0_inv in Im as [Hr Hc].
    assert (m = Matrix 0 0 0 (m_capacity m) (m_data m)) as Hmm.
    { destruct m; simpl in *. by subst. }
    rewrite <- Hmm. split_and!; [done| |by left].
    by rewrite <- (I2_nil _ _ _ Hm Hz).
  - destruct (I2_block h m xs Hm Hnz) as (l & b & Hd & Hl & Hlen & _ & Hb).
    destruct Hm as (Hs & Hcap & _).
    exists (<[l := replicate (N.to_nat (m_capacity m)) Raw]> h). split_and!.
    + rewrite Hd. erewrite bind_Ret; [done|].
      rewrite destroy_write, (write_slots_spec _ l 0 b) by
        (rewrite ?length_replicate; first [done | lia]).
      do 2 f_equal. rewrite Hb.
      rewrite list_inserts_0_r by (rewrite length_replicate, length_fmap; lia).
      rewrite (replicate_split (length xs) (N.to_nat (m_capacity m))) by lia.
      do 2 f_equal. lia.
    + unfold I2, buffer; simpl. rewrite Hd. simpl.
      rewrite lookup_insert_eq, Nat.sub_0_r. split_and!; [done|lia|done].
    + right. eauto.
Qed.

End Cleared.



(** X25.  A matrix that satisfies I1 and I2, after [clear()]: it is empty,
    [flatten()] returns no element, [at] throws [out_of_range] for every
    index pair, a second [clear()] changes neither the object nor the store,
    and its destructor then releases the block the matrix had before the
    [clear()], giving the store of before without that block. *)
Theorem clear_then_use {T : Type} (h : heap T) (m : matrix) (xs : list T) :
  I1 m → I2 h m xs →
  ∃ m' h', clear m h = Ret m' h' ∧
    empty m' = true ∧
    flatten m' h' = Ret [] h' ∧
    (∀ row column,
       at_ m' row column h'
       = Throw (out_of_range "matrix::_M_range_check - index out of range.")
               h') ∧
    clear m' h' = Ret m' h' ∧
    destructor m' h'
    = Ret (Matrix 0 0 0 0 (m_data m))
          (match m_data m with Ptr l _ => delete l h | nullptr => h end).
Proof.
  intros Im Hm.
  destruct (clear_Ret h m xs Im Hm) as (h' & E & Hm' & Hh').
  eexists _, h'. split; [exact E|]. split_and!; [done| | |done|].
  - by apply flatten_spec.
  - intros row column. apply at_out_of_range. left. simpl. lia.
  - rewrite (destructor_Ret _ _ _ Hm'). simpl. f_equal.
    destruct Hh' as [->|(l & -> & ->)]; [done|].
    by rewrite delete_insert_eq.
Qed.

Lemma clear_then_use_witness :
  ∃ m' h', clear Examples.A Examples.store = Ret m' h' ∧
    flatten m' h' = Ret [] h' ∧
    destructor m' h'
    = Ret (Matrix 0 0 0 0 (Ptr 1%positive 0)) (delete 1%positive Examples.store).
Proof.
  destruct (clear_then_use Examples.store Examples.A [1; 2; 3; 4]%Z)
    as (m' & h' & E & _ & Hfl & _ & _ & Hd); [reflexivity | concrete_I2 |].
  exists m', h'. split_and!; [exact E | exact Hfl | exact Hd].
Defined.

(** X27.  A copy compares equal to its original.  For a matrix that
    satisfies I1 and I2 and whose elements are each equal to themselves, the
    matrix the copy constructor returns and the original are [==] in both
    directions and not [!=], so a copy assignment of the one to the other
    assigns nothing. *)
Theorem copy_equals_original {T : Type} `{!EqualityComparable T}
    (h : heap T) (other : matrix) (xs : list T) :
  I1 other → I2 h other xs → Forall (λ x, eq_op x x = true) xs →
  ∃ m h', matrix_copy other h = Ret m h' ∧
    operator_eq m other h' = Ret true h' ∧
    operator_eq other m h' = Ret true h' ∧
    operator_ne m other h' = Ret false h' ∧
    assign_copy other m h' = Ret other h'.
Proof.
  intros Io Ho Hrefl.
  destruct (copy_into_fresh h other xs (m_rows other) (m_columns other) Ho)
    as (data & h' & E & Hm & _ & Hsub).
  set (m := Matrix (m_rows other) (m_columns other)
                   (m_size other) (m_size other) data) in *.
  assert (I1 m) as Im by done.
  pose proof (I2_mono h h' other xs Hsub Ho) as Ho'.
  assert (Forall2 (λ x y, eq_op x y = true) xs xs) as Hall
    by (by apply Forall_Forall2_diag).
  assert (operator_eq m other h' = Ret true h') as E1.
  { destruct (operator_eq_spec h' m other xs xs Im Io Hm Ho')
      as (r & Er & _ & Hsame).
    rewrite Er. f_equal. by apply Hsame. }
  assert (operator_eq other m h' = Ret true h') as E2.
  { destruct (operator_eq_spec h' other m xs xs Io Im Ho' Hm)
      as (r & Er & _ & Hsame).
    rewrite Er. f_equal. by apply Hsame. }
  exists m, h'. split_and!; [exact E|done|done| |].
  - unfold operator_ne. erewrite bind_Ret by done. reflexivity.
  - unfold assign_copy, operator_ne. erewrite bind_Ret; last first.
    { erewrite bind_Ret by done. reflexivity. }
    done.
Qed.

Lemma copy_equals_original_witness :
  ∃ m h', matrix_copy Examples.C Examples.store = Ret m h' ∧
    operator_eq m Examples.C h' = Ret true h'.
Proof.
  destruct (copy_equals_original Examples.store Examples.C
              [1; 2; 3; 4; 5; 6]%Z)
    as (m & h' & E & Heq & _);
    [reflexivity | concrete_I2 | by repeat constructor |].
  exists m, h'. split; [exact E | exact Heq].
Defined.
